(** * spotify_tui: a model of the key, search and playback handlers

    Shallow embedding of [src/spotify_tui.py] (class [SpotifyTUI]).

    - Python values: [str] is [string] (characters are code points below
      256), [int] is [Z], a list is [list], [None]-or-value is [option].
    - The global client [sp] is an oracle: the answer of a remote call may
      depend on how many remote calls were made before it.
    - A handler is a computation over the attributes of the application
      object that either returns or raises ([M]).
    - A widget shows the text of its last [update]; an [update] parses
      its text as markup and can raise ([Markup]).
    - The asyncio event loop is a table of tasks, each stopped at one of
      its [await] points, and a [step] function that runs one handler or
      resumes one task.

    Left out: the layout ([CSS], the widgets of [compose] other than their
    initial text), [update_track_name], which nothing calls, and
    [on_unmount], which only shuts the executor down. *)

From Stdlib Require Import ZArith Ascii String.
From stdpp Require Import base tactics option list strings.
From Stdlib Require Import Lia.
Import ListNotations.

Local Open Scope string_scope.
Local Open Scope Z_scope.

(** ** Python strings *)

Module Py.

(** [str.isspace] on one character, for code points below 256:
    TAB..CR, FS..US, SPACE, NEL and NBSP. *)
Definition isspace (c : ascii) : bool :=
  let n := N_of_ascii c in
  ((9 <=? n) && (n <=? 13) || (28 <=? n) && (n <=? 32)
   || (n =? 133) || (n =? 160))%N.

Fixpoint lstrip (s : string) : string :=
  match s with
  | EmptyString => EmptyString
  | String c s' => if isspace c then lstrip s' else s
  end.

Fixpoint rstrip (s : string) : string :=
  match s with
  | EmptyString => EmptyString
  | String c s' =>
      match rstrip s' with
      | EmptyString => if isspace c then EmptyString else String c EmptyString
      | r => String c r
      end
  end.

(** [s.strip()] *)
Definition strip (s : string) : string := rstrip (lstrip s).

(** Truth value of a [str]: the empty string is false. *)
Definition truthy (s : string) : bool :=
  match s with EmptyString => false | String _ _ => true end.

Fixpoint all_space (s : string) : bool :=
  match s with
  | EmptyString => true
  | String c s' => isspace c && all_space s'
  end.

(** ["\n"] *)
Definition nl : string := String (ascii_of_nat 10) EmptyString.

(** [sep.join(l)] *)
Definition join (sep : string) (l : list string) : string := String.concat sep l.

End Py.

(** ** Exceptions and results *)

(** What a call can raise. Every exception here is a subclass of
    [Exception]: [spotipy.SpotifyException] with its [http_status] and its
    [str(e)] rendering, or any other one (a transport error of [requests],
    a [KeyError], an [IndexError]) with its rendering. *)
Inductive Exn : Type :=
| SpotifyException (http_status : Z) (str : string)
| OtherException (str : string).

Inductive Result (A : Type) : Type :=
| Ok (a : A)
| Raise (e : Exn).
Arguments Ok {A} a.
Arguments Raise {A} e.

Definition is_SpotifyException (e : Exn) : bool :=
  match e with SpotifyException _ _ => true | OtherException _ => false end.

(** [str(e)] *)
Definition str_of (e : Exn) : string :=
  match e with SpotifyException _ s => s | OtherException s => s end.

Definition IndexError : Exn := OtherException "IndexError".
Definition KeyError : Exn := OtherException "KeyError".

(** [l[i]] on a Python list: negative indices count from the end, and an
    index outside [-len(l), len(l)) raises. *)
Definition getitem {A} (l : list A) (i : Z) : Result A :=
  let n := Z.of_nat (length l) in
  let j := if i <? 0 then i + n else i in
  if (0 <=? j) && (j <? n) then
    match l !! Z.to_nat j with
    | Some x => Ok x
    | None => Raise IndexError
    end
  else Raise IndexError.

(** ** The remote service *)

(** A track of a search answer: [item['name']], the names
    [a['name'] for a in item['artists']] and [item['uri']]. *)
Record Track : Type := {
  name : string;
  artists : list string;
  uri : string
}.

(** The object of [sp.current_playback()] when it is not [None]: a
    non-empty dict; [pb_is_playing] is [None] when the key [is_playing] is
    absent, [pb_item] is the name of [playback['item']] or [None] when
    there is no item. *)
Record Playback : Type := {
  pb_is_playing : option bool;
  pb_item : option string
}.

Inductive Call : Type :=
| CurrentPlayback
| PausePlayback
| StartPlayback (uris : option (list string))
| NextTrack
| PreviousTrack
| Search (q : string) (type : string) (limit : Z).

(** Where a remote call is executed: inside a coroutine or handler running
    on the event loop, or in the thread of [self.executor]. *)
Inductive Where : Type := OnLoop | InExecutor.

(** The answers of the client [sp]. The first argument is the number of
    remote calls made so far. [sp_search] answers the list under
    [results["tracks"]["items"]], or [None] when one of these keys is
    missing. *)
Record Spotify : Type := {
  sp_current_playback : nat -> Result (option Playback);
  sp_pause_playback : nat -> Result unit;
  sp_start_playback : nat -> option (list string) -> Result unit;
  sp_next_track : nat -> Result unit;
  sp_previous_track : nat -> Result unit;
  sp_search : nat -> string -> string -> Z -> Result (option (list Track))
}.

Definition is_command (c : Call) : bool :=
  match c with
  | PausePlayback | StartPlayback _ | NextTrack | PreviousTrack => true
  | CurrentPlayback | Search _ _ _ => false
  end.

(** ** Tasks of the event loop *)

Inductive Coroutine : Type :=
| DelayedSearch (query : string)
| HandlePlayback (action : string).

(** The [await] point a task is stopped at.
    - [Scheduled]: created by [asyncio.create_task], not started yet;
    - [Sleeping]: in [await asyncio.sleep(0.2)] of [delayed_search];
    - [Submitted]: in [await loop.run_in_executor(...)], job not run yet;
    - [Returned r]: same [await], the job has finished with [r];
    - [Settling]: in [await asyncio.sleep(0.1)] of [handle_playback];
    - [Finished exc]: the coroutine returned, or raised [exc];
    - [Cancelled]: [task.cancel()] was called before it finished. *)
Inductive Phase : Type :=
| Scheduled
| Sleeping
| Submitted
| Returned (r : Result (list Track))
| Settling
| Finished (exc : option Exn)
| Cancelled.

Record Task : Type := {
  coro : Coroutine;
  phase : Phase
}.

(** A task in one of these phases will run nothing more. *)
Definition over (ph : Phase) : bool :=
  match ph with
  | Finished _ | Cancelled => true
  | _ => false
  end.

(** [task.done()]. Between [task.cancel()] and the moment the loop
    delivers the cancellation Python still answers [False]; the only use,
    the guard of a second [cancel()], makes no difference then. *)
Definition done (t : Task) : bool := over (phase t).

(** ** The application object *)

Record App : Type := {
  (* attributes set in on_mount *)
  query : string;
  track_uri : option string;
  selected_index : Z;
  results : list Track;
  search_task : option nat;
  is_playing : option bool;
  (* widgets: Static #results, Label #now-playing, Input #search-input *)
  results_box : string;
  now_playing : string;
  has_focus : bool;
  (* the tasks created on the event loop, by creation order *)
  tasks : list Task;
  (* the remote calls made so far, oldest first *)
  calls : list (Where * Call)
}.

Definition set_query (v : string) (s : App) : App :=
  {| query := v; track_uri := track_uri s; selected_index := selected_index s;
     results := results s; search_task := search_task s;
     is_playing := is_playing s; results_box := results_box s;
     now_playing := now_playing s; has_focus := has_focus s;
     tasks := tasks s; calls := calls s |}.

Definition set_track_uri (v : option string) (s : App) : App :=
  {| query := query s; track_uri := v; selected_index := selected_index s;
     results := results s; search_task := search_task s;
     is_playing := is_playing s; results_box := results_box s;
     now_playing := now_playing s; has_focus := has_focus s;
     tasks := tasks s; calls := calls s |}.

Definition set_selected_index (v : Z) (s : App) : App :=
  {| query := query s; track_uri := track_uri s; selected_index := v;
     results := results s; search_task := search_task s;
     is_playing := is_playing s; results_box := results_box s;
     now_playing := now_playing s; has_focus := has_focus s;
     tasks := tasks s; calls := calls s |}.

Definition set_results (v : list Track) (s : App) : App :=
  {| query := query s; track_uri := track_uri s; selected_index := selected_index s;
     results := v; search_task := search_task s;
     is_playing := is_playing s; results_box := results_box s;
     now_playing := now_playing s; has_focus := has_focus s;
     tasks := tasks s; calls := calls s |}.

Definition set_search_task (v : option nat) (s : App) : App :=
  {| query := query s; track_uri := track_uri s; selected_index := selected_index s;
     results := results s; search_task := v;
     is_playing := is_playing s; results_box := results_box s;
     now_playing := now_playing s; has_focus := has_focus s;
     tasks := tasks s; calls := calls s |}.

Definition set_is_playing (v : option bool) (s : App) : App :=
  {| query := query s; track_uri := track_uri s; selected_index := selected_index s;
     results := results s; search_task := search_task s;
     is_playing := v; results_box := results_box s;
     now_playing := now_playing s; has_focus := has_focus s;
     tasks := tasks s; calls := calls s |}.

Definition set_results_box (v : string) (s : App) : App :=
  {| query := query s; track_uri := track_uri s; selected_index := selected_index s;
     results := results s; search_task := search_task s;
     is_playing := is_playing s; results_box := v;
     now_playing := now_playing s; has_focus := has_focus s;
     tasks := tasks s; calls := calls s |}.

Definition set_now_playing (v : string) (s : App) : App :=
  {| query := query s; track_uri := track_uri s; selected_index := selected_index s;
     results := results s; search_task := search_task s;
     is_playing := is_playing s; results_box := results_box s;
     now_playing := v; has_focus := has_focus s;
     tasks := tasks s; calls := calls s |}.

Definition set_has_focus (v : bool) (s : App) : App :=
  {| query := query s; track_uri := track_uri s; selected_index := selected_index s;
     results := results s; search_task := search_task s;
     is_playing := is_playing s; results_box := results_box s;
     now_playing := now_playing s; has_focus := v;
     tasks := tasks s; calls := calls s |}.

Definition set_tasks (v : list Task) (s : App) : App :=
  {| query := query s; track_uri := track_uri s; selected_index := selected_index s;
     results := results s; search_task := search_task s;
     is_playing := is_playing s; results_box := results_box s;
     now_playing := now_playing s; has_focus := has_focus s;
     tasks := v; calls := calls s |}.

Definition set_calls (v : list (Where * Call)) (s : App) : App :=
  {| query := query s; track_uri := track_uri s; selected_index := selected_index s;
     results := results s; search_task := search_task s;
     is_playing := is_playing s; results_box := results_box s;
     now_playing := now_playing s; has_focus := has_focus s;
     tasks := tasks s; calls := v |}.

(** ** Handlers as computations *)

(** A handler reads and writes the application object and returns, or
    raises; what it wrote before raising stays written. *)
Definition M (A : Type) : Type := App -> App * Result A.

Definition ret {A} (a : A) : M A := fun s => (s, Ok a).

Definition raise {A} (e : Exn) : M A := fun s => (s, Raise e).

Definition bind {A B} (m : M A) (k : A -> M B) : M B :=
  fun s =>
    match m s with
    | (s', Ok a) => k a s'
    | (s', Raise e) => (s', Raise e)
    end.

Notation "'let*' x ':=' m 'in' k" := (bind m (fun x => k))
  (at level 10, x name, m at level 100, k at level 200).
Notation "m '>>' k" := (bind m (fun _ => k))
  (at level 90, right associativity).

Definition get : M App := fun s => (s, Ok s).

Definition modify (f : App -> App) : M unit := fun s => (f s, Ok tt).

Definition lift {A} (r : Result A) : M A := fun s => (s, r).

(** [try: body  except <caught> as e: handler e] *)
Definition try_except {A} (body : M A) (caught : Exn -> bool)
    (handler : Exn -> M A) : M A :=
  fun s =>
    match body s with
    | (s', Raise e) => if caught e then handler e s' else (s', Raise e)
    | r => r
    end.

(** A bare [except:] and [except Exception] catch everything in [Exn]. *)
Definition any_exception (e : Exn) : bool := true.

(** The state a computation ends in, and what it returned or raised. *)
Definition exec {A} (m : M A) (s : App) : App := fst (m s).
Definition outcome {A} (m : M A) (s : App) : Result A := snd (m s).

(** The exception a computation let escape, if any. *)
Definition escaped {A} (r : Result A) : option Exn :=
  match r with Ok _ => None | Raise e => Some e end.

(** The remote calls a computation adds to the log. *)
Definition new_calls {A} (m : M A) (s : App) : list (Where * Call) :=
  drop (length (calls s)) (calls (exec m s)).

(** [asyncio.create_task(c)]: the new task is last in the table; its
    position is its handle. *)
Definition create_task (c : Coroutine) : M nat :=
  fun s =>
    (set_tasks (tasks s ++ [{| coro := c; phase := Scheduled |}]) s,
     Ok (length (tasks s))).

Definition set_phase (tid : nat) (ph : Phase) (s : App) : App :=
  set_tasks (alter (fun t => {| coro := coro t; phase := ph |}) tid (tasks s)) s.

(** [task.cancel()] *)
Definition cancel (tid : nat) : M unit := modify (set_phase tid Cancelled).

(** The rows of the result list:
    [f"{'>' if i == self.selected_index else ' '} {item['name']} by
       {item['artists'][0]['name']}" for i, item in enumerate(results)] *)
Definition row (sel i : Z) (item : Track) : Result string :=
  match getitem (artists item) 0 with
  | Ok a =>
      Ok ((if i =? sel then ">" else " ") +:+ " " +:+ name item +:+ " by " +:+ a)
  | Raise e => Raise e
  end.

Fixpoint rows (sel i : Z) (l : list Track) : Result (list string) :=
  match l with
  | [] => Ok []
  | item :: l' =>
      match row sel i item with
      | Raise e => Raise e
      | Ok r =>
          match rows sel (i + 1) l' with
          | Raise e => Raise e
          | Ok rs => Ok (r :: rs)
          end
      end
  end.

Definition render (sel : Z) (l : list Track) : Result string :=
  match rows sel 0 l with
  | Ok rs => Ok (Py.join Py.nl rs)
  | Raise e => Raise e
  end.

(** [len(l)] *)
Definition len {A} (l : list A) : Z := Z.of_nat (length l).

(** Truth value of a list. *)
Definition nonempty {A} (l : list A) : bool :=
  match l with [] => false | _ :: _ => true end.

(** ** The widgets *)

(** [widget.update(text)] of the [Static] and of the [Label] parses
    [text] as markup before it shows it. A text without "[" contains no
    tag and is always accepted. For a text with "[" the parser of the
    framework decides: [parses text] tells whether it accepts the text,
    and the update raises [MarkupError] when it does not (a closing tag
    that closes nothing, for instance). *)
Class Markup : Type := parses : string -> bool.

Fixpoint has_bracket (s : string) : bool :=
  match s with
  | EmptyString => false
  | String c s' => Ascii.eqb c "["%char || has_bracket s'
  end.

Definition accepted `{Markup} (text : string) : bool :=
  negb (has_bracket text) || parses text.

Definition MarkupError : Exn := OtherException "MarkupError".

(** [results_box.update(text)] *)
Definition update_results_box `{Markup} (text : string) : M unit :=
  if accepted text then modify (set_results_box text) else raise MarkupError.

(** [status.update(text)] *)
Definition update_now_playing `{Markup} (text : string) : M unit :=
  if accepted text then modify (set_now_playing text) else raise MarkupError.

Section Handlers.

Context `{ui : Markup}.
Variable sp : Spotify.

(** A call of a method of [sp], made from [w]. *)
Definition remote {A} (w : Where) (c : Call) (answer : nat -> Result A) : M A :=
  fun s => (set_calls (calls s ++ [(w, c)]) s, answer (length (calls s))).

(** The attributes that [on_mount] assigns before it reads the playback
    state, and the widgets as [compose] yields them. *)
Definition mounted (focus : bool) : App :=
  {| query := ""; track_uri := None; selected_index := 0; results := [];
     search_task := None; is_playing := None;
     results_box := "Type to search..."; now_playing := "Not Playing";
     has_focus := focus; tasks := []; calls := [] |}.

Definition on_mount : M unit :=
  try_except
    (let* playback := remote OnLoop CurrentPlayback (sp_current_playback sp) in
     modify (set_is_playing
               (match playback with
                | Some p => Some (default false (pb_is_playing p))
                | None => None
                end)) >>
     match playback with
     | Some {| pb_item := Some nm |} => update_now_playing ("Playing: " +:+ nm)
     | _ => ret tt
     end)
    any_exception
    (fun _ => modify (set_is_playing (Some false))).

Definition search_spotify (query : string) : M (list Track) :=
  if negb (Py.truthy (Py.strip query)) then ret []
  else
    try_except
      (let* answer := remote InExecutor (Search query "track" 5)
                        (fun n => sp_search sp n query "track" 5) in
       match answer with
       | Some items => ret items
       | None => raise KeyError
       end)
      any_exception
      (fun _ => ret []).

(** [delayed_search] after [await loop.run_in_executor(...)] has given
    [answer]. *)
Definition delayed_search_apply (query : string)
    (answer : Result (list Track)) : M unit :=
  let* results := lift answer in
  modify (set_results results) >>
  if nonempty results then
    modify (set_selected_index 0) >>
    let* s := get in
    let* text := lift (render (selected_index s) results) in
    update_results_box text
  else
    update_results_box
      (if Py.truthy query then "No results" else "Type to search...").

Definition on_input_changed (value : string) : M unit :=
  modify (set_query (Py.strip value)) >>
  let* s := get in
  match search_task s with
  | Some tid =>
      match tasks s !! tid with
      | Some t => if negb (done t) then cancel tid else ret tt
      | None => ret tt
      end
  | None => ret tt
  end >>
  let* s := get in
  if negb (Py.truthy (query s)) then
    modify (set_results []) >>
    update_results_box "Type to search..."
  else
    let* tid := create_task (DelayedSearch (query s)) in
    modify (set_search_task (Some tid)).

(** The [except spotipy.exceptions.SpotifyException as e] clause around
    the body of [handle_playback]. *)
Definition playback_errors (body : M Phase) : M Phase :=
  try_except body is_SpotifyException
    (fun e =>
       match e with
       | SpotifyException http_status _ =>
           if http_status =? 404 then
             update_now_playing "Error: No active Spotify device found"
           else
             update_now_playing ("Playback Error: " +:+ str_of e)
       | OtherException _ => ret tt
       end >>
       ret (Finished None)).

(** [playback and playback.get('is_playing', False)] as a truth value. *)
Definition current_state_of (playback : option Playback) : bool :=
  match playback with
  | Some p => default false (pb_is_playing p)
  | None => false
  end.

(** [playback and playback.get('item')], giving the item's name. *)
Definition item_of (playback : option Playback) : option string :=
  match playback with
  | Some p => pb_item p
  | None => None
  end.

(** [handle_playback] up to its first [await] (or to its end). The value
    is the phase the task is left in. *)
Definition handle_playback (action : string) : M Phase :=
  playback_errors
    (let* playback := remote OnLoop CurrentPlayback (sp_current_playback sp) in
     let current_state := current_state_of playback in
     if String.eqb action "play_pause" then
       if current_state then
         remote OnLoop PausePlayback (sp_pause_playback sp) >>
         modify (set_is_playing (Some false)) >>
         update_now_playing "Paused" >>
         ret (Finished None)
       else
         remote OnLoop (StartPlayback None)
           (fun n => sp_start_playback sp n None) >>
         modify (set_is_playing (Some true)) >>
         match item_of playback with
         | Some nm => update_now_playing ("Playing: " +:+ nm)
         | None => ret tt
         end >>
         ret (Finished None)
     else if String.eqb action "next" || String.eqb action "previous" then
       (if String.eqb action "next"
        then remote OnLoop NextTrack (sp_next_track sp)
        else remote OnLoop PreviousTrack (sp_previous_track sp)) >>
       modify (set_is_playing (Some true)) >>
       ret Settling
     else ret (Finished None)).

(** [handle_playback] after [await asyncio.sleep(0.1)]. *)
Definition handle_playback_settled : M Phase :=
  playback_errors
    (let* new_playback := remote OnLoop CurrentPlayback (sp_current_playback sp) in
     match item_of new_playback with
     | Some nm => update_now_playing ("Playing: " +:+ nm)
     | None => ret tt
     end >>
     ret (Finished None)).

(** One whole invocation of [handle_playback], when no other handler runs
    during its [await]. *)
Definition handle_playback_run (action : string) : M Phase :=
  fun s =>
    match handle_playback action s with
    | (s', Ok Settling) => handle_playback_settled s'
    | r => r
    end.

Definition on_key (key : string) : M unit :=
  let* s := get in
  if negb (has_focus s) then
    if String.eqb key "space" then
      create_task (HandlePlayback "play_pause") >> ret tt
    else if String.eqb key "n" then
      create_task (HandlePlayback "next") >> ret tt
    else if String.eqb key "p" then
      create_task (HandlePlayback "previous") >> ret tt
    else ret tt
  else if has_focus s && nonempty (results s) then
    if String.eqb key "down" then
      modify (set_selected_index
                (Z.min (selected_index s + 1) (len (results s) - 1))) >>
      let* s := get in
      let* text := lift (render (selected_index s) (results s)) in
      update_results_box text
    else if String.eqb key "up" then
      modify (set_selected_index (Z.max (selected_index s - 1) 0)) >>
      let* s := get in
      let* text := lift (render (selected_index s) (results s)) in
      update_results_box text
    else if String.eqb key "enter" then
      let* item := lift (getitem (results s) (selected_index s)) in
      modify (set_track_uri (Some (uri item))) >>
      try_except
        (remote OnLoop (StartPlayback (Some [uri item]))
           (fun n => sp_start_playback sp n (Some [uri item])) >>
         let* s := get in
         let* item := lift (getitem (results s) (selected_index s)) in
         update_now_playing ("Playing: " +:+ name item))
        is_SpotifyException
        (fun _ => update_now_playing "Playback Error")
    else ret tt
  else ret tt.

End Handlers.

(** ** The event loop *)

(** What can happen next: the framework delivers a message to one of the
    handlers ([on_input_changed], [on_key], [action_focus_search],
    [action_blur_search]), the loop resumes a task whose [await] is over,
    or the thread of [self.executor] runs the job that a task has
    submitted. Events come in any order, so every interleaving of the
    handlers and the tasks is a run. *)
Inductive Event : Type :=
| InputChanged (value : string)
| KeyPressed (key : string)
| FocusSearch
| BlurSearch
| Wake (tid : nat)
| Work (tid : nat).

Section Loop.

Context `{ui : Markup}.
Variable sp : Spotify.

(** Run a coroutine to its next [await] and record where the task stops. *)
Definition advance (tid : nat) (m : M Phase) (s : App) : App :=
  match m s with
  | (s', Ok ph) => set_phase tid ph s'
  | (s', Raise e) => set_phase tid (Finished (Some e)) s'
  end.

(** The loop resumes task [tid]. [delayed_search(query)] takes three
    resumptions: to [await asyncio.sleep(0.2)]; to
    [await loop.run_in_executor(...)], which submits the job; and, once the
    job has answered, from [self.results = results] to the end.
    [handle_playback(action)] takes one, or two around
    [await asyncio.sleep(0.1)]. A task that is cancelled gets
    [CancelledError] at its [await] and runs nothing more; a task that is
    finished, or still waits for its job, is not resumed. *)
Definition wake (tid : nat) (s : App) : App :=
  match tasks s !! tid with
  | Some {| coro := DelayedSearch q; phase := Scheduled |} =>
      set_phase tid Sleeping s
  | Some {| coro := DelayedSearch q; phase := Sleeping |} =>
      set_phase tid Submitted s
  | Some {| coro := DelayedSearch q; phase := Returned r |} =>
      advance tid (delayed_search_apply q r >> ret (Finished None)) s
  | Some {| coro := HandlePlayback a; phase := Scheduled |} =>
      advance tid (handle_playback sp a) s
  | Some {| coro := HandlePlayback a; phase := Settling |} =>
      advance tid (handle_playback_settled sp) s
  | _ => s
  end.

(** The executor thread runs [partial(self.search_spotify, query)] for
    task [tid]. A job that is running when its task is cancelled runs to
    its end: that is the event [Work] before the cancellation, and its
    answer is never read. The job of a task that is cancelled while the
    job still waits in the queue is dropped: the cancellation is taken to
    reach the executor's future at once, where asyncio passes it on by a
    callback of the loop. *)
Definition work (tid : nat) (s : App) : App :=
  match tasks s !! tid with
  | Some {| coro := DelayedSearch q; phase := Submitted |} =>
      let (s', r) := search_spotify sp q s in
      set_phase tid (Returned r) s'
  | _ => s
  end.

(** One event. An exception that escapes a message handler is left to the
    framework; the attributes keep what the handler wrote before it. *)
Definition step (s : App) (e : Event) : App :=
  match e with
  | InputChanged value => exec (on_input_changed value) s
  | KeyPressed key => exec (on_key sp key) s
  | FocusSearch => set_has_focus true s
  | BlurSearch => set_has_focus false s
  | Wake tid => wake tid s
  | Work tid => work tid s
  end.

(** The state after [on_mount] and then the events [evs], in order. *)
Definition run (focus : bool) (evs : list Event) : App :=
  fold_left step evs (exec (on_mount sp) (mounted focus)).

Definition reachable (s : App) : Prop :=
  exists focus evs, s = run focus evs.

(** Whether resuming task [tid] in [s] makes [delayed_search] write its
    answer into [self.results] and the result list. *)
Definition applies (tid : nat) (s : App) : bool :=
  match tasks s !! tid with
  | Some {| coro := DelayedSearch _; phase := Returned (Ok _) |} => true
  | _ => false
  end.

(** How many times task [tid] wrote its answer during [evs] from [s]. *)
Fixpoint applied (tid : nat) (s : App) (evs : list Event) : nat :=
  match evs with
  | [] => 0
  | e :: evs' =>
      ((match e with
        | Wake t => if decide (t = tid) then (if applies tid s then 1 else 0) else 0
        | _ => 0
        end) + applied tid (step s e) evs')%nat
  end.

End Loop.

(** ** The invariant of the controller *)

(** The selection points into the result list whenever there is one. *)
Definition in_range (s : App) : Prop :=
  results s <> [] -> 0 <= selected_index s < len (results s).

(** A search task that can still run is the one in [self.search_task],
    and it searches for [self.query]. *)
Definition one_live (s : App) : Prop :=
  forall tid q ph,
    tasks s !! tid = Some {| coro := DelayedSearch q; phase := ph |} ->
    over ph = false ->
    search_task s = Some tid /\ q = query s.

Definition consistent (s : App) : Prop := in_range s /\ one_live s.

(** The state after the first two statements of [on_input_changed]: the
    query is stored and the pending search task, if any, is cancelled. *)
Definition superseded (value : string) (s : App) : App :=
  let s1 := set_query (Py.strip value) s in
  match search_task s1 with
  | Some t0 =>
      match tasks s1 !! t0 with
      | Some t => if negb (done t) then set_phase t0 Cancelled s1 else s1
      | None => s1
      end
  | None => s1
  end.






(** Whether [item['artists'][0]] exists. *)
Definition has_artist (item : Track) : bool := nonempty (artists item).

(** The row of the result list for [item] at position [i]. *)
Definition row_text (sel i : Z) (item : Track) (artist : string) : string :=
  (if i =? sel then ">" else " ") +:+ " " +:+ name item +:+ " by " +:+ artist.

(** Events other than a change of the search input. *)
Definition no_input_change (e : Event) : bool :=
  match e with InputChanged _ => false | _ => true end.

(** The action that a key starts when the search input is not focused. *)
Definition playback_key (key : string) : option string :=
  if String.eqb key "space" then Some "play_pause"
  else if String.eqb key "n" then Some "next"
  else if String.eqb key "p" then Some "previous"
  else None.

(** The tasks are those the handlers can create: a search task carries a
    non-empty query without surrounding whitespace, a playback task one of
    the three actions of the keys, and [self.search_task], when set, is a
    search task. *)
Definition tasks_well_formed (s : App) : Prop :=
  (forall tid q ph,
     tasks s !! tid = Some {| coro := DelayedSearch q; phase := ph |} ->
     q <> "" /\ Py.strip q = q) /\
  (forall tid a ph,
     tasks s !! tid = Some {| coro := HandlePlayback a; phase := ph |} ->
     a = "play_pause" \/ a = "next" \/ a = "previous") /\
  (forall tid,
     search_task s = Some tid ->
     exists q ph, tasks s !! tid = Some {| coro := DelayedSearch q; phase := ph |}).

(** The result list is empty, the placeholder is shown, the selection is
    [i], and no search task can run any more. *)
Definition cleared (i : Z) (s : App) : Prop :=
  (forall tid q ph,
     tasks s !! tid = Some {| coro := DelayedSearch q; phase := ph |} ->
     over ph = true) /\
  results s = [] /\ results_box s = "Type to search..." /\
  selected_index s = i.

(** ** A scripted service for examples *)

Module Demo.

(** An example of a markup parser: it rejects a text in which a closing
    tag occurs, that is "[/". *)
Fixpoint closes_tag (s : string) : bool :=
  match s with
  | EmptyString => false
  | String c s' =>
      match s' with
      | String d _ => Ascii.eqb c "["%char && Ascii.eqb d "/"%char || closes_tag s'
      | EmptyString => false
      end
  end.

#[global] Instance markup : Markup := fun text => negb (closes_tag text).

Definition track (n a u : string) : Track :=
  {| name := n; artists := [a]; uri := u |}.

Definition three : list Track :=
  [track "Bohemian Rhapsody" "Queen" "spotify:track:1";
   track "Bohemian Like You" "The Dandy Warhols" "spotify:track:2";
   track "La Boheme" "Charles Aznavour" "spotify:track:3"].

Definition playing : Playback :=
  {| pb_is_playing := Some true; pb_item := Some "Radio Ga Ga" |}.

Definition paused : Playback :=
  {| pb_is_playing := Some false; pb_item := Some "Radio Ga Ga" |}.

(** Every call succeeds; something is playing; a search finds [three]. *)
Definition ok : Spotify :=
  {| sp_current_playback := fun _ => Ok (Some playing);
     sp_pause_playback := fun _ => Ok tt;
     sp_start_playback := fun _ _ => Ok tt;
     sp_next_track := fun _ => Ok tt;
     sp_previous_track := fun _ => Ok tt;
     sp_search := fun _ _ _ _ => Ok (Some three) |}.

(** As [ok], with playback paused. *)
Definition ok_paused : Spotify :=
  {| sp_current_playback := fun _ => Ok (Some paused);
     sp_pause_playback := fun _ => Ok tt;
     sp_start_playback := fun _ _ => Ok tt;
     sp_next_track := fun _ => Ok tt;
     sp_previous_track := fun _ => Ok tt;
     sp_search := fun _ _ _ _ => Ok (Some three) |}.

(** Reads and searches succeed; every playback command raises [e]. *)
Definition commands_fail (e : Exn) : Spotify :=
  {| sp_current_playback := fun _ => Ok (Some playing);
     sp_pause_playback := fun _ => Raise e;
     sp_start_playback := fun _ _ => Raise e;
     sp_next_track := fun _ => Raise e;
     sp_previous_track := fun _ => Raise e;
     sp_search := fun _ _ _ _ => Ok (Some three) |}.

(** As [ok], but every search raises [e]. *)
Definition search_fails (e : Exn) : Spotify :=
  {| sp_current_playback := fun _ => Ok (Some playing);
     sp_pause_playback := fun _ => Ok tt;
     sp_start_playback := fun _ _ => Ok tt;
     sp_next_track := fun _ => Ok tt;
     sp_previous_track := fun _ => Ok tt;
     sp_search := fun _ _ _ _ => Raise e |}.

(** Something else is paused at every read after the first one. *)
Definition changing : Spotify :=
  {| sp_current_playback := fun n =>
       Ok (Some {| pb_is_playing := Some false;
                   pb_item := Some (if n is O then "Radio Ga Ga"
                                    else "Under Pressure") |});
     sp_pause_playback := fun _ => Ok tt;
     sp_start_playback := fun _ _ => Ok tt;
     sp_next_track := fun _ => Ok tt;
     sp_previous_track := fun _ => Ok tt;
     sp_search := fun _ _ _ _ => Ok (Some three) |}.


(** A track whose name the example parser rejects. *)
Definition odd : Track :=
  {| name := "A [/b] B"; artists := ["C"]; uri := "spotify:track:4" |}.

(** As [ok], with one more item in the answer of a search, and [odd]
    paused at every read after the first one. *)
Definition with_odd : Spotify :=
  {| sp_current_playback := fun n =>
       Ok (Some {| pb_is_playing := Some false;
                   pb_item := Some (if n is O then "Radio Ga Ga"
                                    else "A [/b] B") |});
     sp_pause_playback := fun _ => Ok tt;
     sp_start_playback := fun _ _ => Ok tt;
     sp_next_track := fun _ => Ok tt;
     sp_previous_track := fun _ => Ok tt;
     sp_search := fun _ _ _ _ => Ok (Some [odd]) |}.

Definition no_device : Exn :=
  SpotifyException 404 "http status: 404, code:-1 - Player command failed: No active device found".

Definition server_error : Exn :=
  SpotifyException 500 "http status: 500, code:-1 - Server error".

Definition read_timeout : Exn := OtherException "ReadTimeout".

(** The user types "boh" in the focused input; the quiet interval passes,
    the search runs in the executor and its answer is shown. *)
Definition typed : list Event :=
  [InputChanged "boh"; Wake 0; Wake 0; Work 0; Wake 0].

(** The state after [typed] and one press of Down: the answer of the
    search on screen, its second row selected. *)
Definition browsing (sp : Spotify) : App :=
  run sp true (typed ++ [KeyPressed "down"]).

End Demo.

(** ** Blank queries *)

Lemma lstrip_all_space (s : string) :
  Py.all_space s = true -> Py.lstrip s = "".
Proof.
  induction s as [|c s IH]; cbn; [done|].
  destruct (Py.isspace c); cbn; [exact IH | discriminate].
Qed.

Lemma lstrip_head (s : string) :
  match Py.lstrip s with
  | EmptyString => Py.all_space s = true
  | String c _ => Py.isspace c = false
  end.
Proof.
  induction s as [|c s IH]; cbn; [done|].
  destruct (Py.isspace c) eqn:E; cbn; [exact IH | exact E].
Qed.

Lemma rstrip_nonspace_head (c : ascii) (s : string) :
  Py.isspace c = false -> Py.rstrip (String c s) <> "".
Proof.
  intros E. cbn. destruct (Py.rstrip s); [rewrite E|]; discriminate.
Qed.

Lemma strip_blank_iff (s : string) :
  Py.strip s = "" <-> Py.all_space s = true.
Proof.
  unfold Py.strip. split.
  - intros H. pose proof (lstrip_head s) as Hh.
    destruct (Py.lstrip s) as [|c r]; [exact Hh|].
    exfalso. exact (rstrip_nonspace_head c r Hh H).
  - intros H. rewrite (lstrip_all_space s H). reflexivity.
Qed.

Lemma truthy_false_iff (s : string) : Py.truthy s = false <-> s = "".
Proof. destruct s; cbn; split; congruence. Qed.

(** ** Unfolding computations *)

Ltac unfold_M :=
  unfold exec, outcome, new_calls, on_mount, search_spotify,
    delayed_search_apply, on_input_changed, handle_playback_run,
    handle_playback, handle_playback_settled, playback_errors, on_key,
    update_results_box, update_now_playing,
    cancel, create_task, remote, try_except, any_exception,
    bind, ret, raise, get, modify, lift in *.

Ltac crunch :=
  unfold_M; cbn in *;
  repeat (case_match; cbn in *; simplify_eq; try done);
  try done.

(** ** The task table *)

Lemma lookup_set_phase (tid tid' : nat) (ph : Phase) (s : App) :
  tasks (set_phase tid ph s) !! tid' =
  if decide (tid = tid')
  then (fun t => {| coro := coro t; phase := ph |}) <$> tasks s !! tid'
  else tasks s !! tid'.
Proof.
  cbn. rewrite list_lookup_alter. by repeat case_decide; subst.
Qed.

Lemma lookup_create (l : list Task) (t : Task) (tid : nat) (t' : Task) :
  ((l ++ [t])%list) !! tid = Some t' ->
  l !! tid = Some t' \/ (tid = length l /\ t' = t).
Proof.
  intros H. destruct (decide (tid < length l)%nat) as [Hlt|Hge].
  - left. by rewrite lookup_app_l in H.
  - right. rewrite lookup_app_r in H by lia.
    destruct (tid - length l)%nat as [|k] eqn:E; cbn in H.
    + split; [lia | congruence].
    + done.
Qed.

(** ** The invariant of the controller *)

Lemma in_range_frame (s s' : App) :
  in_range s ->
  results s' = results s -> selected_index s' = selected_index s ->
  in_range s'.
Proof. unfold in_range. intros H -> ->. exact H. Qed.

(** [one_live] survives any change of the table that starts no search
    task and revives none. *)
Lemma one_live_frame (s s' : App) :
  one_live s ->
  query s' = query s -> search_task s' = search_task s ->
  (forall tid q ph,
     tasks s' !! tid = Some {| coro := DelayedSearch q; phase := ph |} ->
     over ph = false ->
     exists ph', tasks s !! tid = Some {| coro := DelayedSearch q; phase := ph' |}
                 /\ over ph' = false) ->
  one_live s'.
Proof.
  intros H Hq Ht Hsub tid q ph Hl Ho.
  destruct (Hsub tid q ph Hl Ho) as (ph' & Hl' & Ho').
  rewrite Hq, Ht. exact (H tid q ph' Hl' Ho').
Qed.

Lemma one_live_set_phase (tid : nat) (ph : Phase) (s s1 : App) :
  one_live s ->
  query s1 = query s -> search_task s1 = search_task s -> tasks s1 = tasks s ->
  (forall q ph0,
     tasks s !! tid = Some {| coro := DelayedSearch q; phase := ph0 |} ->
     over ph = false -> over ph0 = false) ->
  one_live (set_phase tid ph s1).
Proof.
  intros H Hq Ht Htk Hph. apply (one_live_frame s); [done..|].
  intros tid' q ph' Hl Ho. rewrite lookup_set_phase, Htk in Hl.
  case_decide as E; [subst tid'|by eauto].
  destruct (tasks s !! tid) as [[c p]|] eqn:El; cbn in Hl; [|done].
  simplify_eq. eauto.
Qed.

Section Invariant.

Context `{ui : Markup}.
Variable sp : Spotify.

Lemma mounted_consistent (focus : bool) :
  consistent (exec (on_mount sp) (mounted focus)).
Proof.
  split.
  - intros H. exfalso. apply H. crunch.
  - intros tid q ph H. exfalso. revert H. crunch.
Qed.

(** What the playback coroutine leaves alone. *)
Lemma handle_playback_frame (action : string) (s : App) :
  let s' := exec (handle_playback sp action) s in
  query s' = query s /\ selected_index s' = selected_index s /\
  results s' = results s /\ results_box s' = results_box s /\
  search_task s' = search_task s /\ tasks s' = tasks s.
Proof. crunch. Qed.

Lemma handle_playback_settled_frame (s : App) :
  let s' := exec (handle_playback_settled sp) s in
  query s' = query s /\ selected_index s' = selected_index s /\
  results s' = results s /\ results_box s' = results_box s /\
  search_task s' = search_task s /\ tasks s' = tasks s.
Proof. crunch. Qed.

Lemma search_spotify_frame (q : string) (s : App) :
  let s' := exec (search_spotify sp q) s in
  query s' = query s /\ selected_index s' = selected_index s /\
  results s' = results s /\ results_box s' = results_box s /\
  search_task s' = search_task s /\ tasks s' = tasks s.
Proof. crunch. Qed.

(** What [delayed_search] writes once it has its answer. *)
Lemma delayed_search_apply_spec (q : string) (r : Result (list Track)) (s : App) :
  let s' := exec (delayed_search_apply q r) s in
  query s' = query s /\ search_task s' = search_task s /\ tasks s' = tasks s /\
  match r with
  | Raise _ => s' = s
  | Ok [] =>
      results s' = [] /\ selected_index s' = selected_index s /\
      results_box s' = (if Py.truthy q then "No results" else "Type to search...")
  | Ok l => results s' = l /\ selected_index s' = 0
  end.
Proof. destruct r as [[|t l]|e]; crunch. Qed.

Lemma advance_exec (tid : nat) (m : M Phase) (s : App) :
  exists ph, advance tid m s = set_phase tid ph (exec m s).
Proof.
  unfold advance, exec. destruct (m s) as [s' [ph|e]]; cbn; eauto.
Qed.

Lemma on_key_in_range (key : string) (s : App) :
  in_range s -> in_range (exec (on_key sp key) s).
Proof.
  unfold in_range. intros H.
  crunch; intros Hne; specialize (H Hne); unfold len in *; lia.
Qed.

Lemma on_key_one_live (key : string) (s : App) :
  one_live s -> one_live (exec (on_key sp key) s).
Proof.
  intros H. apply (one_live_frame s _ H); [crunch..|].
  intros tid q ph Hl Ho.
  assert (tasks s !! tid = Some {| coro := DelayedSearch q; phase := ph |});
    [|by eauto].
  revert Hl. crunch; intros Hl; apply lookup_create in Hl as [Hl|[_ Hl]];
    done.
Qed.


Lemma on_input_changed_exec (value : string) (s : App) :
  exec (on_input_changed value) s =
  let s1 := superseded value s in
  if negb (Py.truthy (query s1)) then
    set_results_box "Type to search..." (set_results [] s1)
  else
    set_search_task (Some (length (tasks s1)))
      (set_tasks (tasks s1 ++ [{| coro := DelayedSearch (query s1);
                                 phase := Scheduled |}]) s1).
Proof. unfold superseded. crunch. Qed.

Lemma superseded_frame (value : string) (s : App) :
  let s1 := superseded value s in
  query s1 = Py.strip value /\ selected_index s1 = selected_index s /\
  results s1 = results s /\ results_box s1 = results_box s /\
  search_task s1 = search_task s /\ calls s1 = calls s /\
  length (tasks s1) = length (tasks s).
Proof.
  unfold superseded. cbn. repeat case_match; cbn; rewrite ?length_alter; done.
Qed.

(** After the cancellation step no search task can run any more. *)
Lemma superseded_all_over (value : string) (s : App) (tid : nat)
    (q : string) (ph : Phase) :
  one_live s ->
  tasks (superseded value s) !! tid =
    Some {| coro := DelayedSearch q; phase := ph |} ->
  over ph = true.
Proof.
  intros H Hl. destruct (over ph) eqn:Ho; [done|]. exfalso.
  assert (Hs : forall ph', tasks s !! tid =
             Some {| coro := DelayedSearch q; phase := ph' |} ->
             over ph' = false -> search_task s = Some tid)
    by (intros ph' H1 H2; by destruct (H _ _ _ H1 H2)).
  revert Hl. unfold superseded. cbn.
  destruct (search_task s) as [t0|] eqn:Est; cbn.
  - destruct (tasks s !! t0) as [t|] eqn:Et; cbn.
    + unfold done. destruct (over (phase t)) eqn:Eo; cbn.
      * intros Hl. pose proof (Hs _ Hl Ho). simplify_eq. cbn in Eo. congruence.
      * rewrite list_lookup_alter. case_decide as E.
        -- subst. rewrite Et. cbn. intros ?. by simplify_eq.
        -- intros Hl. pose proof (Hs _ Hl Ho). congruence.
    + intros Hl. pose proof (Hs _ Hl Ho). congruence.
  - intros Hl. pose proof (Hs _ Hl Ho). congruence.
Qed.

Lemma on_input_changed_consistent (value : string) (s : App) :
  consistent s -> consistent (exec (on_input_changed value) s).
Proof.
  intros [Hr Hl]. rewrite on_input_changed_exec.
  pose proof (superseded_frame value s) as (Hq & Hs & Hrs & _ & Hst & _ & Hlen).
  pose proof (superseded_all_over value s) as Hover.
  cbn zeta. destruct (negb _); split.
  - intros Hne. by cbn in Hne.
  - intros tid q ph Hlk Ho. cbn in Hlk.
    rewrite (Hover tid q ph Hl Hlk) in Ho. done.
  - apply (in_range_frame s); cbn; done.
  - intros tid q ph Hlk Ho. cbn in Hlk |- *.
    apply lookup_create in Hlk as [Hlk|[-> Hlk]].
    + rewrite (Hover tid q ph Hl Hlk) in Ho. done.
    + by simplify_eq.
Qed.

Lemma advance_to_end (tid : nat) (m : M unit) (s : App) :
  advance tid (m >> ret (Finished None)) s =
  set_phase tid (Finished (escaped (outcome m s))) (exec m s).
Proof.
  unfold advance, exec, outcome, bind, ret.
  destruct (m s) as [s' [[]|e]]; reflexivity.
Qed.

Lemma wake_consistent (tid : nat) (s : App) :
  consistent s -> consistent (wake sp tid s).
Proof.
  intros [Hr Hl]. unfold wake.
  destruct (tasks s !! tid) as [[[q|a] ph]|] eqn:Et; [| |done].
  - destruct ph; try done.
    + split; [by apply (in_range_frame s)|].
      apply (one_live_set_phase _ _ s); [done..|]. intros; by simplify_eq.
    + split; [by apply (in_range_frame s)|].
      apply (one_live_set_phase _ _ s); [done..|]. intros; by simplify_eq.
    + rewrite advance_to_end.
      pose proof (delayed_search_apply_spec q r s) as (Hq & Hst & Htk & Hres).
      split.
      * unfold in_range in *. cbn.
        destruct r as [[|t l]|e].
        -- destruct Hres as [-> _]. done.
        -- destruct Hres as [-> ->]. intros _. unfold len. cbn. lia.
        -- rewrite Hres. done.
      * apply (one_live_set_phase _ _ s); [done..|]. intros; by simplify_eq.
  - assert (Hpb : forall (m : M Phase) ph',
      (let s' := exec m s in
       query s' = query s /\ selected_index s' = selected_index s /\
       results s' = results s /\ results_box s' = results_box s /\
       search_task s' = search_task s /\ tasks s' = tasks s) ->
      consistent (set_phase tid ph' (exec m s))).
    { intros m ph' (Hq & Hs & Hrs & _ & Hst & Htk). split.
      - by apply (in_range_frame s).
      - apply (one_live_set_phase _ _ s); [done..|]. intros; by simplify_eq. }
    destruct ph; try done.
    + destruct (advance_exec tid (handle_playback sp a) s) as [ph' ->].
      apply Hpb, handle_playback_frame.
    + destruct (advance_exec tid (handle_playback_settled sp) s) as [ph' ->].
      apply Hpb, handle_playback_settled_frame.
Qed.

Lemma work_consistent (tid : nat) (s : App) :
  consistent s -> consistent (work sp tid s).
Proof.
  intros [Hr Hl]. unfold work.
  destruct (tasks s !! tid) as [[[q|a] ph]|] eqn:Et; [|done..].
  destruct ph; try done.
  pose proof (search_spotify_frame q s) as (Hq & Hs & Hrs & _ & Hst & Htk).
  unfold exec in *. destruct (search_spotify sp q s) as [s' r]. cbn in *.
  split.
  - by apply (in_range_frame s).
  - apply (one_live_set_phase _ _ s); [done..|]. intros; by simplify_eq.
Qed.

Lemma step_consistent (s : App) (e : Event) :
  consistent s -> consistent (step sp s e).
Proof.
  intros H. destruct e; cbn.
  - by apply on_input_changed_consistent.
  - destruct H. split; [by apply on_key_in_range | by apply on_key_one_live].
  - exact H.
  - exact H.
  - by apply wake_consistent.
  - by apply work_consistent.
Qed.

Lemma run_consistent (focus : bool) (evs : list Event) :
  consistent (run sp focus evs).
Proof.
  unfold run. generalize (mounted_consistent focus).
  generalize (exec (on_mount sp) (mounted focus)).
  induction evs as [|e evs IH]; intros s H; cbn; [done|].
  apply IH, step_consistent, H.
Qed.

End Invariant.

(** ** Selection navigation ([on_key], Up and Down) *)




(** ** The debounced search pipeline *)

Section Search.

Context `{ui : Markup}.
Variable sp : Spotify.

Lemma advance_tasks (tid : nat) (m : M Phase) (s : App) (tid' : nat) :
  tasks (exec m s) = tasks s ->
  tid <> tid' ->
  tasks (advance tid m s) !! tid' = tasks s !! tid'.
Proof.
  intros Htk Hne. destruct (advance_exec tid m s) as [ph ->].
  rewrite lookup_set_phase, Htk. by case_decide.
Qed.

(** A task that is finished or cancelled stays as it is. *)
Lemma step_keeps_over (s : App) (e : Event) (tid : nat) (t : Task) :
  tasks s !! tid = Some t -> over (phase t) = true ->
  tasks (step sp s e) !! tid = Some t.
Proof.
  intros Hl Ho. destruct e as [value|key| | |tid'|tid']; cbn; try done.
  - rewrite on_input_changed_exec. cbn zeta.
    assert (Hs : tasks (superseded value s) !! tid = Some t).
    { unfold superseded. cbn. repeat case_match; try done.
      cbn. rewrite list_lookup_alter. case_decide; [|done]. subst.
      unfold done in *. simplify_eq. rewrite Ho in *. done. }
    destruct (negb _); cbn; [done|].
    rewrite lookup_app_l; [done|]. by eapply lookup_lt_Some.
  - pose proof (lookup_lt_Some _ _ _ Hl).
    crunch; by rewrite lookup_app_l.
  - unfold wake.
    destruct (tasks s !! tid') as [[[q|a] ph]|] eqn:Et; [| |done].
    + destruct ph; try done.
      * rewrite lookup_set_phase. case_decide; [|done]. by simplify_eq.
      * rewrite lookup_set_phase. case_decide; [|done]. by simplify_eq.
      * rewrite advance_tasks; [done| |].
        -- pose proof (delayed_search_apply_spec q r s) as (_ & _ & Htk & _).
           revert Htk. unfold exec, bind, ret.
           by destruct (delayed_search_apply q r s) as [? [[]|?]].
        -- intros ->. by simplify_eq.
    + destruct ph; try done.
      * rewrite advance_tasks; [done|apply handle_playback_frame|].
        intros ->. by simplify_eq.
      * rewrite advance_tasks; [done|apply handle_playback_settled_frame|].
        intros ->. by simplify_eq.
  - unfold work.
    destruct (tasks s !! tid') as [[[q|a] ph]|] eqn:Et; [|done..].
    destruct ph; try done.
    pose proof (search_spotify_frame sp q s) as (_ & _ & _ & _ & _ & Htk).
    unfold exec in Htk. destruct (search_spotify sp q s) as [s' r]. cbn in Htk.
    rewrite lookup_set_phase, Htk. case_decide; [|done]. by simplify_eq.
Qed.

Lemma applies_over (tid : nat) (s : App) (t : Task) :
  tasks s !! tid = Some t -> over (phase t) = true -> applies tid s = false.
Proof.
  intros Hl Ho. unfold applies. rewrite Hl.
  destruct t as [[q|a] ph]; [|done]. by destruct ph.
Qed.

Lemma applied_over (tid : nat) (evs : list Event) (s : App) (t : Task) :
  tasks s !! tid = Some t -> over (phase t) = true -> applied sp tid s evs = 0%nat.
Proof.
  revert s. induction evs as [|e evs IH]; intros s Hl Ho; cbn; [done|].
  rewrite (IH _ (step_keeps_over s e tid t Hl Ho) Ho).
  destruct e; try done. case_decide; [|done].
  by rewrite (applies_over tid s t Hl Ho).
Qed.

(** Writing its answer is the last thing a search task does. *)
Lemma wake_applies (tid : nat) (s : App) :
  applies tid s = true ->
  exists t, tasks (wake sp tid s) !! tid = Some t /\ over (phase t) = true.
Proof.
  unfold applies, wake.
  destruct (tasks s !! tid) as [[[q|a] ph]|] eqn:Et; [|done..].
  destruct ph as [| | |[l|e]| | |]; try done. intros _.
  rewrite advance_to_end, lookup_set_phase.
  pose proof (delayed_search_apply_spec q (Ok l) s) as (_ & _ & -> & _).
  rewrite decide_True, Et by done. cbn. eauto.
Qed.

Lemma applied_at_most_once (tid : nat) (evs : list Event) (s : App) :
  (applied sp tid s evs <= 1)%nat.
Proof.
  revert s. induction evs as [|e evs IH]; intros s; cbn; [lia|].
  specialize (IH (step sp s e)).
  destruct e as [| | | |tid'|]; try lia.
  case_decide as E; [subst tid'|lia].
  destruct (applies tid s) eqn:Ea; [|lia].
  destruct (wake_applies tid s Ea) as (t & Hl & Ho).
  cbn. rewrite (applied_over tid evs _ t Hl Ho). lia.
Qed.

(** Only a task holding an answer changes the results or the result box
    when it is resumed. *)
Lemma wake_changes_results (tid : nat) (s : App) :
  results (wake sp tid s) <> results s \/
  results_box (wake sp tid s) <> results_box s ->
  exists q l, tasks s !! tid =
              Some {| coro := DelayedSearch q; phase := Returned (Ok l) |}.
Proof.
  unfold wake.
  destruct (tasks s !! tid) as [[[q|a] ph]|] eqn:Et; [| |intros [?|?]; done].
  - destruct ph as [| | |[l|e]| | |]; try (intros [?|?]; done). by eauto.
  - destruct ph; try (intros [?|?]; done).
    + destruct (advance_exec tid (handle_playback sp a) s) as [ph' ->].
      pose proof (handle_playback_frame sp a s) as (_ & _ & Hr & Hb & _).
      cbn. rewrite Hr, Hb. intros [?|?]; done.
    + destruct (advance_exec tid (handle_playback_settled sp) s) as [ph' ->].
      pose proof (handle_playback_settled_frame sp s) as (_ & _ & Hr & Hb & _).
      cbn. rewrite Hr, Hb. intros [?|?]; done.
Qed.

(** Resuming a task moves the selection only by resetting it, when a
    search task writes a non-empty answer. *)
Lemma wake_selected_index (tid : nat) (s : App) :
  selected_index (wake sp tid s) = selected_index s \/
  exists q t l,
    tasks s !! tid =
      Some {| coro := DelayedSearch q; phase := Returned (Ok (t :: l)) |} /\
    results (wake sp tid s) = t :: l /\
    selected_index (wake sp tid s) = 0.
Proof.
  unfold wake.
  destruct (tasks s !! tid) as [[[q|a] ph]|] eqn:Et; [| |by left].
  - destruct ph as [| | |[[|t l]|e]| | |]; try (by left).
    + left. rewrite advance_to_end.
      pose proof (delayed_search_apply_spec q (Ok []) s) as (_ & _ & _ & _ & Hs & _).
      exact Hs.
    + right. exists q, t, l. split; [done|].
      rewrite advance_to_end.
      pose proof (delayed_search_apply_spec q (Ok (t :: l)) s) as (_ & _ & _ & Hres).
      exact Hres.
  - destruct ph; try (by left); left.
    + destruct (advance_exec tid (handle_playback sp a) s) as [ph' ->].
      apply handle_playback_frame.
    + destruct (advance_exec tid (handle_playback_settled sp) s) as [ph' ->].
      apply handle_playback_settled_frame.
Qed.

End Search.

(** C2. Along every run of the controller:
    - a resumed task changes the results or the result box only if it is
      the task in [self.search_task], it searched for the current
      [self.query], and it holds the answer of its search;
    - the executor thread never changes them;
    - after a change of the input, every search task created before it is
      done (cancelled or finished);
    - a task that is done changes nothing when the loop or the executor
      turns to it;
    - no task writes its answer more than once. *)
Theorem stale_search_never_applied `{ui : Markup} (sp : Spotify) (focus : bool)
    (evs : list Event) :
  let s := run sp focus evs in
  (forall tid,
     results (wake sp tid s) <> results s \/
     results_box (wake sp tid s) <> results_box s ->
     search_task s = Some tid /\
     exists l, tasks s !! tid =
       Some {| coro := DelayedSearch (query s); phase := Returned (Ok l) |}) /\
  (forall tid,
     results (work sp tid s) = results s /\
     results_box (work sp tid s) = results_box s) /\
  (forall value tid q ph,
     tasks (step sp s (InputChanged value)) !! tid =
       Some {| coro := DelayedSearch q; phase := ph |} ->
     (tid < length (tasks s))%nat ->
     over ph = true) /\
  (forall tid t,
     tasks s !! tid = Some t -> done t = true ->
     wake sp tid s = s /\ work sp tid s = s) /\
  (forall tid evs', (applied sp tid s evs' <= 1)%nat).
Proof.
  intros s. destruct (run_consistent sp focus evs) as [_ Hlive].
  fold s in Hlive. repeat split.
  - destruct (wake_changes_results sp tid s H) as (q & l & Hl).
    by destruct (Hlive tid q _ Hl eq_refl).
  - destruct (wake_changes_results sp tid s H) as (q & l & Hl).
    destruct (Hlive tid q _ Hl eq_refl) as [_ ->]. eauto.
  - unfold work. destruct (tasks s !! tid) as [[[q|a] ph]|]; [|done..].
    destruct ph; try done.
    pose proof (search_spotify_frame sp q s) as (_ & _ & Hr & _).
    unfold exec in Hr. by destruct (search_spotify sp q s).
  - unfold work. destruct (tasks s !! tid) as [[[q|a] ph]|]; [|done..].
    destruct ph; try done.
    pose proof (search_spotify_frame sp q s) as (_ & _ & _ & Hb & _).
    unfold exec in Hb. by destruct (search_spotify sp q s).
  - intros value tid q ph Hl Hlt. cbn in Hl.
    rewrite on_input_changed_exec in Hl. cbn zeta in Hl.
    pose proof (superseded_frame value s) as (_ & _ & _ & _ & _ & _ & Hlen).
    destruct (negb _); cbn in Hl.
    + by apply (superseded_all_over value s tid q ph Hlive).
    + apply lookup_create in Hl as [Hl|[-> _]]; [|lia].
      by apply (superseded_all_over value s tid q ph Hlive).
  - unfold wake. rewrite H. unfold done in H0.
    destruct t as [[q|a] ph]; destruct ph; done.
  - unfold work. rewrite H. unfold done in H0.
    destruct t as [[q|a] ph]; destruct ph; done.
  - intros tid evs'. apply applied_at_most_once.
Qed.

Lemma stale_search_never_applied_witness :
  let s := run Demo.ok true [InputChanged "boh"; Wake 0; Wake 0; Work 0] in
  results s = [] /\
  results (wake Demo.ok 0 s) = Demo.three /\
  search_task s = Some 0%nat.
Proof.
  intros s.
  destruct (stale_search_never_applied Demo.ok true
              [InputChanged "boh"; Wake 0; Wake 0; Work 0]) as (H & _).
  destruct (H 0%nat) as (Hst & _).
  { left. vm_compute. discriminate. }
  split; [vm_compute; reflexivity|].
  split; [vm_compute; reflexivity | exact Hst].
Defined.

(** ** The selection index *)

(** C3 as stated fails. A search for "boh" shows three results, Down
    selects the second row, then the input is cleared: the result list is
    replaced by the empty list and the selection stays on 1. *)
Lemma selection_kept_on_clear_counterexample :
  ~ (forall (sp : Spotify) (focus : bool) (evs : list Event) (e : Event),
       let s := run sp focus evs in
       results (step sp s e) <> results s ->
       selected_index (step sp s e) = 0).
Proof.
  intros H.
  specialize (H Demo.ok true (Demo.typed ++ [KeyPressed "down"])%list
                (InputChanged "")).
  vm_compute in H. specialize (H ltac:(discriminate)). discriminate H.
Qed.

(** C3 (amended). After every operation the selection lies in
    [0, len(results) - 1] whenever the result list is non-empty. Whenever
    an operation leaves a non-empty result list that differs from the one
    before, and whenever a search task writes a non-empty answer (equal to
    the old list or not), the selection is 0. An operation that leaves the
    result list empty leaves the selection as it was. *)
Theorem selection_in_range_and_reset `{ui : Markup} (sp : Spotify) (focus : bool)
    (evs : list Event) (e : Event) :
  let s := run sp focus evs in
  let s' := step sp s e in
  (results s' <> [] -> 0 <= selected_index s' <= len (results s') - 1) /\
  (results s' <> [] -> results s' <> results s -> selected_index s' = 0) /\
  (forall tid q l,
     e = Wake tid ->
     tasks s !! tid = Some {| coro := DelayedSearch q; phase := Returned (Ok l) |} ->
     l <> [] ->
     results s' = l /\ selected_index s' = 0) /\
  (results s' = [] -> selected_index s' = selected_index s).
Proof.
  intros s s'.
  assert (Hs' : consistent s').
  { subst s' s. apply step_consistent, run_consistent. }
  assert (Hwake : forall tid q l,
    tasks s !! tid = Some {| coro := DelayedSearch q; phase := Returned (Ok l) |} ->
    results (wake sp tid s) = l /\
    selected_index (wake sp tid s) = (if nonempty l then 0 else selected_index s)).
  { intros tid q l Hl. unfold wake. rewrite Hl, advance_to_end. cbn.
    pose proof (delayed_search_apply_spec q (Ok l) s) as (_ & _ & _ & Hres).
    destruct l as [|t l]; cbn;
      [destruct Hres as (? & ? & _) | destruct Hres]; done. }
  split; [|split; [|split]].
  - intros Hne. destruct Hs' as [Hr _]. specialize (Hr Hne). lia.
  - intros Hne Hch. subst s'. destruct e as [value|key| | |tid|tid]; cbn in *.
    + rewrite on_input_changed_exec in Hne, Hch. cbn zeta in *.
      pose proof (superseded_frame value s) as (_ & _ & Hr & _).
      destruct (negb _); cbn in *; congruence.
    + exfalso. apply Hch. clear. crunch.
    + done.
    + done.
    + destruct (wake_changes_results sp tid s (or_introl Hch)) as (q & l & Hl).
      destruct (Hwake tid q l Hl) as [Hr Hsel]. rewrite Hr in Hne.
      rewrite Hsel. by destruct l.
    + exfalso. apply Hch.
      unfold work. destruct (tasks s !! tid) as [[[q|a] ph]|]; [|done..].
      destruct ph; try done.
      pose proof (search_spotify_frame sp q s) as (_ & _ & Hr & _).
      unfold exec in Hr. by destruct (search_spotify sp q s).
  - intros tid q l -> Hl Hne. subst s'. cbn.
    destruct (Hwake tid q l Hl) as [Hr Hsel]. split; [done|].
    rewrite Hsel. by destruct l.
  - intros Hnil. subst s'. destruct e as [value|key| | |tid|tid]; cbn in *.
    + rewrite on_input_changed_exec. cbn zeta.
      pose proof (superseded_frame value s) as (_ & Hsel & _).
      by destruct (negb _).
    + revert Hnil. clear. crunch; intros E; rewrite E in *; cbn in *;
        rewrite ?andb_false_r in *; done.
    + done.
    + done.
    + destruct (wake_selected_index sp tid s) as [|(q & t & l & _ & Hr & _)];
        [done|congruence].
    + unfold work. destruct (tasks s !! tid) as [[[q|a] ph]|]; [|done..].
      destruct ph; try done.
      pose proof (search_spotify_frame sp q s) as (_ & Hsel & _).
      unfold exec in Hsel. by destruct (search_spotify sp q s).
Qed.

Lemma selection_in_range_and_reset_witness :
  let s := run Demo.ok true
             [InputChanged "boh"; Wake 0; Wake 0; Work 0; Wake 0;
              KeyPressed "down"; InputChanged "bohe"; Wake 1; Wake 1; Work 1] in
  selected_index s = 1 /\
  results (step Demo.ok s (Wake 1)) = Demo.three /\
  selected_index (step Demo.ok s (Wake 1)) = 0.
Proof.
  intros s.
  destruct (selection_in_range_and_reset Demo.ok true
              [InputChanged "boh"; Wake 0; Wake 0; Work 0; Wake 0;
               KeyPressed "down"; InputChanged "bohe"; Wake 1; Wake 1; Work 1]
              (Wake 1)) as (_ & _ & H & _).
  destruct (H 1%nat "bohe" Demo.three eq_refl) as (Hr & Hs).
  { vm_compute. reflexivity. }
  { discriminate. }
  split; [vm_compute; reflexivity|]. split; [exact Hr | exact Hs].
Defined.

(** C9. In every reachable state with a non-empty result list the
    selection is at least 0 and less than the length of the list, so
    [self.results[self.selected_index]] of the Enter handler is in bounds:
    it yields an item, and an exception that escapes the handler is the one
    that [sp.start_playback] raised, or the [MarkupError] of a name that
    the label rejects, never an out-of-range error of the indexing. *)
Theorem selected_result_in_bounds `{ui : Markup} (sp : Spotify) (s : App) :
  reachable sp s ->
  results s <> [] ->
  0 <= selected_index s < len (results s) /\
  exists item,
    getitem (results s) (selected_index s) = Ok item /\
    results s !! Z.to_nat (selected_index s) = Some item /\
    (has_focus s = true ->
     track_uri (exec (on_key sp "enter") s) = Some (uri item) /\
     forall e, outcome (on_key sp "enter") s = Raise e ->
       (sp_start_playback sp (length (calls s)) (Some [uri item]) = Raise e /\
        is_SpotifyException e = false) \/
       (sp_start_playback sp (length (calls s)) (Some [uri item]) = Ok tt /\
        accepted ("Playing: " +:+ name item) = false /\
        e = MarkupError)).
Proof.
  intros (focus & evs & ->) Hne.
  destruct (run_consistent sp focus evs) as [Hr _].
  specialize (Hr Hne). split; [exact Hr|].
  set (s := run sp focus evs) in *. unfold len in Hr.
  assert (Hlt : (Z.to_nat (selected_index s) < length (results s))%nat) by lia.
  destruct (lookup_lt_is_Some_2 _ _ Hlt) as [item Hitem].
  assert (Hget : getitem (results s) (selected_index s) = Ok item).
  { unfold getitem.
    destruct (Z.ltb_spec (selected_index s) 0); [lia|].
    destruct (Z.leb_spec 0 (selected_index s)); [|lia].
    destruct (Z.ltb_spec (selected_index s) (Z.of_nat (length (results s)))); [|lia].
    cbn. by rewrite Hitem. }
  exists item. split; [done|]. split; [done|]. intros Hf.
  unfold_M. rewrite Hf. cbn.
  destruct (results s) as [|t l] eqn:Er; [done|]. cbn.
  rewrite Hget. cbn.
  destruct (sp_start_playback sp (length (calls s)) (Some [uri item]))
    as [[]|[st str|str]] eqn:Esp; cbn; rewrite ?Er; cbn; rewrite ?Hget; cbn.
  - destruct (accepted ("Playing: " +:+ name item)) eqn:Ea; cbn.
    + split; [done|]. intros e He. discriminate He.
    + split; [done|]. intros e He. right. by simplify_eq.
  - split; [done|]. intros e He. discriminate He.
  - split; [done|]. intros e He. left. by simplify_eq.
Qed.

Lemma selected_result_in_bounds_witness :
  0 <= 2 < 3 /\
  exists item,
    getitem Demo.three 2 = Ok item /\
    Demo.three !! 2%nat = Some item.
Proof.
  pose (evs := (Demo.typed ++
                [KeyPressed "down"; KeyPressed "down"; KeyPressed "down"])%list).
  destruct (selected_result_in_bounds Demo.ok (run Demo.ok true evs)
              (ex_intro _ true (ex_intro _ evs eq_refl))
              ltac:(discriminate))
    as (Hr & item & Hg & Hl & _).
  split; [exact Hr|]. exists item. split; [exact Hg | exact Hl].
Defined.

(** ** The playback command pipeline *)

(** C7. A [play_pause] whose read of the playback state and whose command
    both succeed makes exactly two remote calls, the read and then one
    command, never both commands: [pause_playback] if the playback object
    read has [is_playing] true, otherwise [start_playback] (there is no
    object, or its [is_playing] is false or absent). It sets [is_playing]
    to the negation of the state read. After a pause the label shows
    "Paused". After a play it shows "Playing: " and the name of the item
    that was read before the command, when there is one; with no item the
    label is kept. The play is then complete; only when the label rejects
    that name as markup does [MarkupError] leave the coroutine, with the
    label as it was, after the command was issued and [is_playing] set. *)
Theorem play_pause_toggles_once `{ui : Markup} (sp : Spotify) (s : App)
    (playback : option Playback) :
  let n := length (calls s) in
  let m := handle_playback sp "play_pause" in
  let one_command :=
    length (filter (fun c => is_command (snd c) = true) (new_calls m s)) = 1%nat in
  sp_current_playback sp n = Ok playback ->
  (forall p,
     playback = Some p -> pb_is_playing p = Some true ->
     sp_pause_playback sp (S n) = Ok tt ->
     new_calls m s = [(OnLoop, CurrentPlayback); (OnLoop, PausePlayback)] /\
     one_command /\
     is_playing (exec m s) = Some false /\
     now_playing (exec m s) = "Paused" /\
     outcome m s = Ok (Finished None)) /\
  ((playback = None \/
    exists p, playback = Some p /\ pb_is_playing p <> Some true) ->
   sp_start_playback sp (S n) None = Ok tt ->
   new_calls m s = [(OnLoop, CurrentPlayback); (OnLoop, StartPlayback None)] /\
   one_command /\
   is_playing (exec m s) = Some true /\
   (forall p nm,
      playback = Some p -> pb_item p = Some nm ->
      if accepted ("Playing: " +:+ nm)
      then now_playing (exec m s) = "Playing: " +:+ nm /\
           outcome m s = Ok (Finished None)
      else now_playing (exec m s) = now_playing s /\
           outcome m s = Raise MarkupError) /\
   ((playback = None \/ exists p, playback = Some p /\ pb_item p = None) ->
    now_playing (exec m s) = now_playing s /\
    outcome m s = Ok (Finished None))) /\
  handle_playback_run sp "play_pause" s = m s.
Proof.
  intros n m one_command Hread. subst n m one_command.
  assert (Hn : length (calls s ++ [(OnLoop, CurrentPlayback)]) =
               S (length (calls s)))
    by (rewrite length_app; cbn; lia).
  assert (Hd : forall c1 c2 : Where * Call,
            drop (length (calls s)) ((calls s ++ [c1]) ++ [c2]) = [c1; c2])
    by (intros c1 c2; rewrite <- app_assoc; apply drop_app_length).
  unfold handle_playback_run, new_calls, exec, outcome.
  unfold handle_playback, playback_errors, try_except, bind, remote, modify,
    ret, update_now_playing, raise.
  cbn. rewrite Hread. cbn. split; [|split].
  - intros p -> Hp Hcmd. cbn. rewrite Hp. cbn. rewrite Hn, Hcmd. cbn.
    rewrite Hd. done.
  - intros Hplay Hcmd.
    assert (Hcur : current_state_of playback = false).
    { destruct Hplay as [->|(p & -> & Hp)]; [done|]. cbn.
      destruct (pb_is_playing p) as [[|]|]; done. }
    rewrite Hcur. cbn. rewrite Hn, Hcmd. cbn.
    destruct playback as [[ip [nm|]]|]; cbn.
    + destruct (accepted ("Playing: " +:+ nm)) eqn:Ea; cbn; rewrite Hd;
        (do 3 (split; [done|])); (split; [|by intros [?|(p & ? & ?)]; simplify_eq]);
        intros p nm' ? ?; simplify_eq; cbn in *; simplify_eq; by rewrite Ea.
    + rewrite Hd. do 3 (split; [done|]).
      split; [by intros p nm ? ?; simplify_eq|done].
    + rewrite Hd. do 3 (split; [done|]).
      split; [by intros p nm ? ?; simplify_eq|done].
  - destruct (current_state_of playback); cbn; rewrite Hn.
    + destruct (sp_pause_playback sp (S (length (calls s)))) as [[]|[st str|str]];
        cbn; [done| |done].
      destruct (st =? 404); cbn; [done|].
      by destruct (accepted _).
    + destruct (sp_start_playback sp (S (length (calls s))) None)
        as [[]|[st str|str]]; cbn.
      * destruct (item_of playback); cbn; [|done]. by destruct (accepted _).
      * destruct (st =? 404); cbn; [done|]. by destruct (accepted _).
      * done.
Qed.

Lemma play_pause_toggles_once_witness :
  let s1 := Demo.browsing Demo.ok in
  let s2 := run Demo.changing false [] in
  now_playing s2 = "Playing: Radio Ga Ga" /\
  is_playing (exec (handle_playback Demo.ok "play_pause") s1) = Some false /\
  now_playing (exec (handle_playback Demo.ok "play_pause") s1) = "Paused" /\
  is_playing (exec (handle_playback Demo.changing "play_pause") s2) = Some true /\
  now_playing (exec (handle_playback Demo.changing "play_pause") s2) =
    "Playing: Under Pressure".
Proof.
  intros s1 s2.
  destruct (play_pause_toggles_once Demo.ok s1 (Some Demo.playing) eq_refl)
    as (Hpause & _).
  destruct (Hpause Demo.playing eq_refl eq_refl eq_refl)
    as (_ & _ & H1 & H2 & _).
  destruct (play_pause_toggles_once Demo.changing s2
              (Some {| pb_is_playing := Some false;
                       pb_item := Some "Under Pressure" |}) eq_refl)
    as (_ & Hplay & _).
  destruct Hplay as (_ & _ & H3 & Hname & _).
  { right. eexists. split; [reflexivity | discriminate]. }
  { reflexivity. }
  pose proof (Hname _ "Under Pressure" eq_refl eq_refl) as (H4 & _).
  split; [reflexivity|]. split; [exact H1|]. split; [exact H2|].
  split; [exact H3 | exact H4].
Defined.

(** C8. When the text of the input is empty or made of whitespace only,
    which is when its stripped text is empty ([strip_blank_iff]),
    [on_input_changed] makes no remote call and creates no task, stores the
    empty query,
    empties the result list and shows "Type to search..."; afterwards
    every search task is done, so none will call the search later. The
    search worker itself returns the empty list for such a text without
    calling [sp.search]. *)
Theorem blank_query_clears_without_search `{ui : Markup} (sp : Spotify) (focus : bool)
    (evs : list Event) (value : string) :
  Py.all_space value = true ->
  let s := run sp focus evs in
  let s' := exec (on_input_changed value) s in
  Py.strip value = "" /\
  calls s' = calls s /\
  length (tasks s') = length (tasks s) /\
  query s' = "" /\
  results s' = [] /\
  results_box s' = "Type to search..." /\
  (forall tid q ph,
     tasks s' !! tid = Some {| coro := DelayedSearch q; phase := ph |} ->
     over ph = true) /\
  outcome (on_input_changed value) s = Ok tt /\
  search_spotify sp value s = (s, Ok []).
Proof.
  intros Hblank s s'. apply strip_blank_iff in Hblank. split; [done|].
  destruct (run_consistent sp focus evs) as [_ Hlive]. fold s in Hlive.
  pose proof (on_input_changed_exec value s) as Hexec. fold s' in Hexec.
  pose proof (superseded_frame value s) as (Hq & _ & _ & _ & _ & Hcalls & Hlen).
  cbn zeta in Hexec. rewrite Hq, Hblank in Hexec. cbn in Hexec.
  rewrite Hexec. cbn. do 5 (split; [congruence|]). split; [|split].
  - intros tid q ph Hl. by apply (superseded_all_over value s tid q ph Hlive).
  - unfold outcome. unfold_M. cbn. rewrite Hblank.
    repeat case_match; done.
  - unfold search_spotify. by rewrite Hblank.
Qed.

Lemma blank_query_clears_without_search_witness :
  let s := run Demo.ok true Demo.typed in
  results s = Demo.three /\
  results (exec (on_input_changed "   ") s) = [] /\
  results_box (exec (on_input_changed "   ") s) = "Type to search..." /\
  calls (exec (on_input_changed "   ") s) = calls s.
Proof.
  intros s.
  destruct (blank_query_clears_without_search Demo.ok true Demo.typed "   "
              eq_refl)
    as (_ & Hc & _ & _ & Hr & Hb & _).
  split; [vm_compute; reflexivity|].
  split; [exact Hr|]. split; [exact Hb | exact Hc].
Defined.




(** C5 (defect of the Enter handler). Three results are on screen, the
    second one selected, and every playback command of the service fails
    with [e]. Enter while [e] is "no active device" (status 404) shows
    "Playback Error", the same text as for a status 500 and without the
    reason, whereas Space (with the input blurred) shows the dedicated
    message for the same exception and the reason for the other. An
    exception that is not a [SpotifyException] escapes both handlers and
    the label is left as it was. *)
Theorem select_track_error_not_distinguished :
  let enter e :=
    step (Demo.commands_fail e) (Demo.browsing (Demo.commands_fail e))
      (KeyPressed "enter") in
  let space e :=
    run (Demo.commands_fail e) false [KeyPressed "space"; Wake 0] in
  now_playing (enter Demo.no_device) = "Playback Error" /\
  now_playing (enter Demo.server_error) = "Playback Error" /\
  now_playing (space Demo.no_device) = "Error: No active Spotify device found" /\
  now_playing (space Demo.server_error) =
    "Playback Error: http status: 500, code:-1 - Server error" /\
  outcome (on_key (Demo.commands_fail Demo.read_timeout) "enter")
    (Demo.browsing (Demo.commands_fail Demo.read_timeout)) =
    Raise Demo.read_timeout /\
  tasks (space Demo.read_timeout) !! 0%nat =
    Some {| coro := HandlePlayback "play_pause";
            phase := Finished (Some Demo.read_timeout) |} /\
  now_playing (enter Demo.read_timeout) = "Playing: Radio Ga Ga" /\
  now_playing (space Demo.read_timeout) = "Playing: Radio Ga Ga".
Proof. vm_compute. repeat split. Qed.

(** C4 (defect of the playback path). Space with the input blurred, then
    the resumption of the task it created: the read of the playback state
    and the pause command are made by the coroutine itself, on the event
    loop, like the read of [on_mount] before them; so is the
    [start_playback] of Enter, made by the key handler. Only the search is
    made in the executor thread. *)
Theorem playback_calls_made_on_the_loop :
  calls (run Demo.ok false [KeyPressed "space"; Wake 0]) =
    [(OnLoop, CurrentPlayback); (OnLoop, CurrentPlayback); (OnLoop, PausePlayback)] /\
  calls (run Demo.ok false [KeyPressed "n"; Wake 0; Wake 0]) =
    [(OnLoop, CurrentPlayback); (OnLoop, CurrentPlayback); (OnLoop, NextTrack);
     (OnLoop, CurrentPlayback)] /\
  new_calls (on_key Demo.ok "enter") (Demo.browsing Demo.ok) =
    [(OnLoop, StartPlayback (Some ["spotify:track:2"]))] /\
  calls (run Demo.ok true Demo.typed) =
    [(OnLoop, CurrentPlayback); (InExecutor, Search "boh" "track" 5)].
Proof. vm_compute. repeat split. Qed.

(** ** The search worker *)

(** C10. [search_spotify] returns a list for every query and every
    behaviour of the service, and never raises. It returns the empty list
    without a remote call when the stripped query is empty, and the empty
    list when [sp.search] raises or its answer lacks the expected keys;
    otherwise it returns the items found. A search that fails and a search
    that finds nothing leave the same state and the same answer, in the
    worker and in the task that waits for it, and [delayed_search] then
    empties the result list, keeps the selection and shows "No results"
    for a non-empty query. *)
Theorem search_spotify_total `{ui : Markup} (sp : Spotify) (query : string) (s : App) :
  let n := length (calls s) in
  (exists l, outcome (search_spotify sp query) s = Ok l) /\
  (Py.strip query = "" -> search_spotify sp query s = (s, Ok [])) /\
  (forall e, sp_search sp n query "track" 5 = Raise e ->
     outcome (search_spotify sp query) s = Ok []) /\
  (sp_search sp n query "track" 5 = Ok None ->
     outcome (search_spotify sp query) s = Ok []) /\
  (forall l, Py.strip query <> "" ->
     sp_search sp n query "track" 5 = Ok (Some l) ->
     outcome (search_spotify sp query) s = Ok l) /\
  (forall sp' e,
     sp_search sp n query "track" 5 = Raise e ->
     sp_search sp' n query "track" 5 = Ok (Some []) ->
     search_spotify sp query s = search_spotify sp' query s /\
     forall tid,
       tasks s !! tid =
         Some {| coro := DelayedSearch query; phase := Submitted |} ->
       work sp tid s = work sp' tid s /\
       tasks (work sp tid s) !! tid =
         Some {| coro := DelayedSearch query; phase := Returned (Ok []) |}) /\
  (query <> "" ->
     let s' := exec (delayed_search_apply query (Ok [])) s in
     results s' = [] /\ selected_index s' = selected_index s /\
     results_box s' = "No results" /\
     outcome (delayed_search_apply query (Ok [])) s = Ok tt).
Proof.
  intros n. subst n.
  assert (Hblank : Py.strip query = "" -> search_spotify sp query s = (s, Ok [])).
  { intros H. unfold search_spotify. by rewrite H. }
  split; [|split; [exact Hblank|split; [|split; [|split; [|split]]]]].
  - unfold outcome. unfold_M. cbn.
    destruct (Py.truthy (Py.strip query)); cbn; [|by eauto].
    destruct (sp_search sp (length (calls s)) query "track" 5) as [[l|]|e];
      cbn; eauto.
  - intros e He. unfold outcome. unfold_M. cbn.
    destruct (Py.truthy (Py.strip query)); cbn; [|done]. by rewrite He.
  - intros He. unfold outcome. unfold_M. cbn.
    destruct (Py.truthy (Py.strip query)); cbn; [|done]. by rewrite He.
  - intros l Hq He. unfold outcome. unfold_M. cbn.
    destruct (Py.truthy (Py.strip query)) eqn:Et; cbn; [by rewrite He|].
    by apply truthy_false_iff in Et.
  - intros sp' e He He'.
    assert (Heq : search_spotify sp query s = search_spotify sp' query s).
    { unfold_M. cbn. destruct (Py.truthy (Py.strip query)); cbn; [|done].
      by rewrite He, He'. }
    split; [exact Heq|]. intros tid El. unfold work. rewrite El, <- Heq.
    split; [done|].
    pose proof (search_spotify_frame sp query s) as (_ & _ & _ & _ & _ & Htk).
    assert (Hout : outcome (search_spotify sp query) s = Ok []).
    { unfold outcome. unfold_M. cbn.
      destruct (Py.truthy (Py.strip query)); cbn; [|done]. by rewrite He. }
    unfold exec, outcome in *.
    destruct (search_spotify sp query s) as [s1 r]. cbn in *. subst r.
    rewrite list_lookup_alter, decide_True, Htk, El by done. done.
  - intros Hq. destruct query as [|c q]; [done|]. by cbn.
Qed.

Lemma search_spotify_total_witness :
  let sp := Demo.search_fails Demo.server_error in
  let s := run sp true [InputChanged "boh"; Wake 0; Wake 0] in
  outcome (search_spotify sp "boh") s = Ok [] /\
  results_box (exec (delayed_search_apply "boh" (Ok [])) s) = "No results".
Proof.
  intros sp s.
  destruct (search_spotify_total sp "boh" s)
    as (_ & _ & Hfail & _ & _ & _ & Hshow).
  split.
  - exact (Hfail Demo.server_error eq_refl).
  - destruct (Hshow ltac:(discriminate)) as (_ & _ & Hbox & _). exact Hbox.
Defined.

(** * Further properties of the handlers *)

(** ** Start-up *)

(** X1. [on_mount] never raises, whatever the service and the label do:
    it makes one read of the playback state on the loop, leaves an empty
    result list, selection 0 and no task. When the read fails it records
    "not playing" and leaves the label "Not Playing". When the read
    succeeds, [is_playing] is [None] for no playback object and the
    object's [is_playing] (false when the key is absent) otherwise, and
    the label shows the item's name when there is one; but when the label
    rejects that name as markup, the error is swallowed like a failed read:
    "not playing" is recorded and the label is left. *)
Theorem on_mount_never_raises `{ui : Markup} (sp : Spotify) (focus : bool) :
  let s := exec (on_mount sp) (mounted focus) in
  outcome (on_mount sp) (mounted focus) = Ok tt /\
  calls s = [(OnLoop, CurrentPlayback)] /\
  query s = "" /\ results s = [] /\ selected_index s = 0 /\
  tasks s = [] /\ search_task s = None /\ track_uri s = None /\
  results_box s = "Type to search..." /\ has_focus s = focus /\
  match sp_current_playback sp 0 with
  | Raise _ => is_playing s = Some false /\ now_playing s = "Not Playing"
  | Ok None => is_playing s = None /\ now_playing s = "Not Playing"
  | Ok (Some p) =>
      match pb_item p with
      | Some nm =>
          if accepted ("Playing: " +:+ nm)
          then is_playing s = Some (default false (pb_is_playing p)) /\
               now_playing s = "Playing: " +:+ nm
          else is_playing s = Some false /\ now_playing s = "Not Playing"
      | None =>
          is_playing s = Some (default false (pb_is_playing p)) /\
          now_playing s = "Not Playing"
      end
  end.
Proof.
  unfold exec, outcome, on_mount, try_except, any_exception, bind, remote,
    modify, ret, update_now_playing, raise. cbn.
  destruct (sp_current_playback sp 0) as [[[ip [nm|]]|]|e]; cbn; try done.
  destruct (accepted ("Playing: " +:+ nm)); cbn; done.
Qed.

(** ** Skip commands *)

(** X2. A [next] or [previous] whose read, skip command and second read
    all succeed makes exactly these three calls, in this order, and marks
    playing whatever the reads say. The label then shows "Playing: " and
    the name of the item of the second read; it is kept when that read has
    no item, and also when the label rejects the name as markup, in which
    case [MarkupError] leaves the coroutine. *)
Theorem skip_shows_fetched_track `{ui : Markup} (sp : Spotify) (s : App)
    (action : string) (playback new_playback : option Playback) :
  action = "next" \/ action = "previous" ->
  let n := length (calls s) in
  let m := handle_playback_run sp action in
  sp_current_playback sp n = Ok playback ->
  (if String.eqb action "next" then sp_next_track sp (S n)
   else sp_previous_track sp (S n)) = Ok tt ->
  sp_current_playback sp (S (S n)) = Ok new_playback ->
  new_calls m s =
    [(OnLoop, CurrentPlayback);
     (OnLoop, if String.eqb action "next" then NextTrack else PreviousTrack);
     (OnLoop, CurrentPlayback)] /\
  is_playing (exec m s) = Some true /\
  outcome (handle_playback sp action) s = Ok Settling /\
  (forall p nm,
     new_playback = Some p -> pb_item p = Some nm ->
     if accepted ("Playing: " +:+ nm)
     then now_playing (exec m s) = "Playing: " +:+ nm /\
          outcome m s = Ok (Finished None)
     else now_playing (exec m s) = now_playing s /\
          outcome m s = Raise MarkupError) /\
  ((new_playback = None \/
    exists p, new_playback = Some p /\ pb_item p = None) ->
   now_playing (exec m s) = now_playing s /\
   outcome m s = Ok (Finished None)).
Proof.
  intros Hact n m Hread Hcmd Hread2. subst n m.
  assert (Hn1 : forall c : Where * Call,
            length (calls s ++ [c]) = S (length (calls s)))
    by (intros c; rewrite length_app; cbn; lia).
  assert (Hn2 : forall c1 c2 : Where * Call,
            length ((calls s ++ [c1]) ++ [c2]) = S (S (length (calls s))))
    by (intros c1 c2; rewrite !length_app; cbn; lia).
  assert (Hd : forall c1 c2 c3 : Where * Call,
            drop (length (calls s)) (((calls s ++ [c1]) ++ [c2]) ++ [c3]) =
            [c1; c2; c3])
    by (intros c1 c2 c3; rewrite <- !app_assoc; apply drop_app_length).
  unfold handle_playback_run, new_calls, exec, outcome.
  unfold handle_playback, handle_playback_settled, playback_errors,
    try_except, bind, remote, modify, ret, update_now_playing, raise.
  destruct Hact as [-> | ->]; cbn in *; rewrite Hread; cbn;
    rewrite Hn1, Hcmd; cbn; rewrite Hn2, Hread2; cbn;
    (destruct new_playback as [[ip [nm|]]|]; cbn;
     [destruct (accepted ("Playing: " +:+ nm)) eqn:Ea; cbn|..]);
    rewrite Hd; (do 3 (split; [done|]));
    (split; [intros p nm' ? ?; simplify_eq; cbn in *; simplify_eq;
               by rewrite ?Ea
            |try done; by intros [?|(p & ? & ?)]; simplify_eq]).
Qed.

Lemma skip_shows_fetched_track_witness :
  let s := run Demo.changing false [] in
  let s' := exec (handle_playback_run Demo.changing "next") s in
  is_playing s = Some false /\ now_playing s = "Playing: Radio Ga Ga" /\
  is_playing s' = Some true /\ now_playing s' = "Playing: Under Pressure".
Proof.
  intros s s'.
  pose (p := {| pb_is_playing := Some false; pb_item := Some "Under Pressure" |}).
  destruct (skip_shows_fetched_track Demo.changing s "next" (Some p) (Some p)
              (or_introl eq_refl) eq_refl eq_refl eq_refl)
    as (_ & H1 & _ & H2 & _).
  destruct (H2 p "Under Pressure" eq_refl eq_refl) as (H3 & _).
  split; [reflexivity|]. split; [reflexivity|]. split; [exact H1 | exact H3].
Defined.

(** ** Selecting a track *)

(** X3. Enter with the input focused, on a selection that points at an
    item of the result list, when [start_playback] succeeds: the one
    remote call is [start_playback] with the URI of that item alone, the
    URI is stored in [track_uri], the label shows the item's name, and
    nothing else changes; in particular [is_playing] is not updated and
    no task is created. When the label rejects the name as markup, the
    call has been made and the URI stored all the same, the label is left
    and [MarkupError] leaves the handler. *)
Theorem select_track_plays_selected `{ui : Markup} (sp : Spotify) (s : App) (item : Track) :
  has_focus s = true ->
  0 <= selected_index s ->
  results s !! Z.to_nat (selected_index s) = Some item ->
  sp_start_playback sp (length (calls s)) (Some [uri item]) = Ok tt ->
  let called :=
    set_calls (calls s ++ [(OnLoop, StartPlayback (Some [uri item]))])
      (set_track_uri (Some (uri item)) s) in
  (if accepted ("Playing: " +:+ name item)
   then exec (on_key sp "enter") s =
          set_now_playing ("Playing: " +:+ name item) called /\
        outcome (on_key sp "enter") s = Ok tt
   else exec (on_key sp "enter") s = called /\
        outcome (on_key sp "enter") s = Raise MarkupError) /\
  is_playing (exec (on_key sp "enter") s) = is_playing s.
Proof.
  intros Hf H0 Hitem Hcmd.
  assert (Hlt := lookup_lt_Some _ _ _ Hitem).
  assert (Hget : getitem (results s) (selected_index s) = Ok item).
  { unfold getitem.
    destruct (Z.ltb_spec (selected_index s) 0); [lia|].
    destruct (Z.leb_spec 0 (selected_index s)); [|lia].
    destruct (Z.ltb_spec (selected_index s) (Z.of_nat (length (results s)))); [|lia].
    cbn. by rewrite Hitem. }
  unfold exec, outcome. unfold_M. rewrite Hf. cbn.
  destruct (results s) as [|t l] eqn:Er; [done|]. cbn.
  rewrite Hget. cbn. rewrite Hcmd. cbn. rewrite Er. cbn. rewrite Hget. cbn.
  by destruct (accepted ("Playing: " +:+ name item)).
Qed.

Lemma select_track_plays_selected_witness :
  let s := Demo.browsing Demo.ok in
  track_uri (exec (on_key Demo.ok "enter") s) = Some "spotify:track:2" /\
  now_playing (exec (on_key Demo.ok "enter") s) = "Playing: Bohemian Like You".
Proof.
  intros s.
  destruct (select_track_plays_selected Demo.ok s
              (Demo.track "Bohemian Like You" "The Dandy Warhols" "spotify:track:2"))
    as (H & _).
  - vm_compute; reflexivity.
  - vm_compute; discriminate.
  - vm_compute; reflexivity.
  - reflexivity.
  - destruct H as (H & _). rewrite H. split; reflexivity.
Defined.

(** ** Keys *)

(** X4. The playback keys act only while the search input is not focused.
    Focused, no key creates a task. Not focused, Space, N and P create one
    task each, for [play_pause], [next] and [previous], without a remote
    call by the key handler itself and without any other change; every
    other key changes nothing. The first resumption of the new task runs
    [handle_playback] for that action. *)
Theorem playback_keys_need_blur `{ui : Markup} (sp : Spotify) (s : App) (key : string) :
  let s' := exec (on_key sp key) s in
  (has_focus s = true -> tasks s' = tasks s) /\
  (has_focus s = false ->
     outcome (on_key sp key) s = Ok tt /\
     match playback_key key with
     | None => s' = s
     | Some action =>
         s' = set_tasks (tasks s ++ [{| coro := HandlePlayback action;
                                        phase := Scheduled |}]) s /\
         wake sp (length (tasks s)) s' =
           advance (length (tasks s)) (handle_playback sp action) s'
     end).
Proof.
  cbn zeta. split.
  - intros Hf. unfold exec. unfold_M. rewrite Hf. cbn.
    repeat (case_match; cbn in *; simplify_eq; try done).
  - intros Hf. unfold exec, outcome, playback_key. unfold_M. rewrite Hf. cbn.
    repeat (case_match; cbn; simplify_eq; try done);
      (split; [done|]); (split; [by destruct s|]);
      unfold wake; cbn; rewrite lookup_app_r by lia;
      rewrite Nat.sub_diag; done.
Qed.

Lemma playback_keys_need_blur_witness :
  let s := run Demo.ok false [] in
  tasks (exec (on_key Demo.ok "n") s) =
    [{| coro := HandlePlayback "next"; phase := Scheduled |}] /\
  tasks (exec (on_key Demo.ok "n") (Demo.browsing Demo.ok)) =
    tasks (Demo.browsing Demo.ok).
Proof.
  intros s.
  destruct (playback_keys_need_blur Demo.ok s "n") as (_ & H).
  destruct (H eq_refl) as (_ & Hs & _).
  destruct (playback_keys_need_blur Demo.ok (Demo.browsing Demo.ok) "n")
    as (H' & _).
  split; [by rewrite Hs | exact (H' eq_refl)].
Defined.

(** X5. Repeated Down saturates at the last row and repeated Up at the
    first: with the input focused, a non-empty result list and the
    selection inside it, [k] presses of Down give
    [min(sel + k, len - 1)] and [k] presses of Up give [max(sel - k, 0)];
    the result list is the same after them. *)
Theorem navigation_saturates `{ui : Markup} (sp : Spotify) (s : App) (k : nat) :
  has_focus s = true ->
  results s <> [] ->
  0 <= selected_index s < len (results s) ->
  let down := fold_left (step sp) (repeat (KeyPressed "down") k) s in
  let up := fold_left (step sp) (repeat (KeyPressed "up") k) s in
  selected_index down =
    Z.min (selected_index s + Z.of_nat k) (len (results s) - 1) /\
  selected_index up = Z.max (selected_index s - Z.of_nat k) 0 /\
  results down = results s /\ results up = results s.
Proof.
  intros Hf Hne Hr. cbn zeta.
  assert (Hstep : forall key s0,
    key = "down" \/ key = "up" ->
    has_focus s0 = true -> results s0 <> [] ->
    let s1 := step sp s0 (KeyPressed key) in
    has_focus s1 = true /\ results s1 = results s0 /\
    selected_index s1 =
      (if String.eqb key "down"
       then Z.min (selected_index s0 + 1) (len (results s0) - 1)
       else Z.max (selected_index s0 - 1) 0)).
  { intros key s0 Hk Hf0 Hne0. cbn. unfold exec. unfold_M. rewrite Hf0. cbn.
    destruct (results s0) as [|t l] eqn:Er; [done|]. cbn.
    destruct Hk as [-> | ->]; cbn; rewrite Er; cbn;
      repeat (case_match; cbn; try done). }
  assert (Hdown : forall n s0, has_focus s0 = true -> results s0 <> [] ->
    0 <= selected_index s0 < len (results s0) ->
    let s1 := fold_left (step sp) (repeat (KeyPressed "down") n) s0 in
    selected_index s1 =
      Z.min (selected_index s0 + Z.of_nat n) (len (results s0) - 1) /\
    results s1 = results s0).
  { clear s Hf Hne Hr. intros n.
    induction n as [|n IH]; intros s0 Hf0 Hne0 Hr0; cbn -[step].
    - split; [lia|done].
    - destruct (Hstep "down" s0 (or_introl eq_refl) Hf0 Hne0) as (Hf1 & Hr1 & Hs1).
      cbn [String.eqb Ascii.eqb Bool.eqb] in Hs1.
      destruct (IH (step sp s0 (KeyPressed "down"))) as (IH1 & IH2);
        [done|by rewrite Hr1|rewrite Hr1, Hs1; lia|].
      rewrite IH1, IH2, Hr1, Hs1. split; [lia|done]. }
  assert (Hup : forall n s0, has_focus s0 = true -> results s0 <> [] ->
    0 <= selected_index s0 < len (results s0) ->
    let s1 := fold_left (step sp) (repeat (KeyPressed "up") n) s0 in
    selected_index s1 = Z.max (selected_index s0 - Z.of_nat n) 0 /\
    results s1 = results s0).
  { clear s Hf Hne Hr Hdown. intros n.
    induction n as [|n IH]; intros s0 Hf0 Hne0 Hr0; cbn -[step].
    - split; [lia|done].
    - destruct (Hstep "up" s0 (or_intror eq_refl) Hf0 Hne0) as (Hf1 & Hr1 & Hs1).
      cbn [String.eqb Ascii.eqb Bool.eqb] in Hs1.
      destruct (IH (step sp s0 (KeyPressed "up"))) as (IH1 & IH2);
        [done|by rewrite Hr1|rewrite Hr1, Hs1; lia|].
      rewrite IH1, IH2, Hr1, Hs1. split; [lia|done]. }
  destruct (Hdown k s Hf Hne Hr) as [? ?].
  destruct (Hup k s Hf Hne Hr) as [? ?]. done.
Qed.

Lemma navigation_saturates_witness :
  let s := run Demo.ok true Demo.typed in
  selected_index (fold_left (step Demo.ok) (repeat (KeyPressed "down") 5) s) = 2 /\
  selected_index (fold_left (step Demo.ok) (repeat (KeyPressed "up") 5) s) = 0.
Proof.
  intros s.
  destruct (navigation_saturates Demo.ok s 5) as (H1 & H2 & _).
  - vm_compute; reflexivity.
  - vm_compute; discriminate.
  - vm_compute. split; [discriminate | reflexivity].
  - split; [rewrite H1 | rewrite H2]; vm_compute; reflexivity.
Defined.

(** ** Rendering the result list *)

Lemma row_with_artist (sel i : Z) (item : Track) :
  row sel i item =
  match artists item with
  | a :: _ => Ok (row_text sel i item a)
  | [] => Raise IndexError
  end.
Proof. unfold row, row_text, getitem. by destruct (artists item). Qed.

Lemma rows_ok (sel : Z) (l : list Track) (k : Z) :
  forallb has_artist l = true ->
  exists rs,
    rows sel k l = Ok rs /\ length rs = length l /\
    forall i item, l !! i = Some item ->
      exists a, head (artists item) = Some a /\
                rs !! i = Some (row_text sel (k + Z.of_nat i) item a).
Proof.
  revert k. induction l as [|t l IH]; intros k Hall; cbn in *.
  - exists []. repeat split. intros i item H. done.
  - apply andb_true_iff in Hall as [Ht Hl].
    destruct (IH (k + 1) Hl) as (rs & Hrs & Hlen & Hrow).
    rewrite row_with_artist, Hrs. unfold has_artist in Ht.
    destruct (artists t) as [|a al] eqn:Ea; [done|].
    exists (row_text sel k t a :: rs). split; [done|]. split; [cbn; lia|].
    intros [|i] item Hi.
    + cbn in Hi. simplify_eq. exists a. rewrite Ea. split; [done|].
      cbn. by rewrite Z.add_0_r.
    + change (l !! i = Some item) in Hi.
      destruct (Hrow i item Hi) as (a' & Ha' & Hr). exists a'.
      split; [done|]. change (rs !! i = Some (row_text sel (k + Z.of_nat (S i)) item a')).
      rewrite Hr. replace (k + Z.of_nat (S i)) with (k + 1 + Z.of_nat i) by lia.
      done.
Qed.

Lemma rows_raise (sel : Z) (l : list Track) (k : Z) :
  forallb has_artist l = false -> rows sel k l = Raise IndexError.
Proof.
  revert k. induction l as [|t l IH]; intros k Hall; cbn in *; [done|].
  rewrite row_with_artist. unfold has_artist in Hall.
  destruct (artists t) as [|a al]; [done|]. cbn in Hall.
  by rewrite (IH (k + 1) Hall).
Qed.

(** X6. The rendering of a result list succeeds exactly when every track
    has at least one artist. It then has one row per track, in order, each
    made of the track's name and its first artist, and the row at the
    selected position, and only that one, starts with ">". A single track
    without artists makes the whole rendering raise [IndexError]. *)
Theorem render_marks_selected_row (sel : Z) (l : list Track) :
  (forallb has_artist l = true ->
   exists rs,
     render sel l = Ok (Py.join Py.nl rs) /\ length rs = length l /\
     forall i item, l !! i = Some item ->
       exists a,
         head (artists item) = Some a /\
         rs !! i =
           Some ((if Z.of_nat i =? sel then ">" else " ")
                 +:+ " " +:+ name item +:+ " by " +:+ a)) /\
  (forallb has_artist l = false -> render sel l = Raise IndexError).
Proof.
  unfold render. split; intros Hall.
  - destruct (rows_ok sel l 0 Hall) as (rs & -> & Hlen & Hrow).
    exists rs. split; [done|]. split; [done|].
    intros i item Hi. destruct (Hrow i item Hi) as (a & Ha & Hr).
    exists a. split; [done|]. by rewrite Hr.
  - by rewrite (rows_raise sel l 0 Hall).
Qed.

Lemma render_marks_selected_row_witness :
  render 1 Demo.three =
    Ok ("  Bohemian Rhapsody by Queen" +:+ Py.nl +:+
        "> Bohemian Like You by The Dandy Warhols" +:+ Py.nl +:+
        "  La Boheme by Charles Aznavour") /\
  render 0 [{| name := "Untitled"; artists := []; uri := "spotify:track:9" |}] =
    Raise IndexError.
Proof.
  destruct (render_marks_selected_row 1 Demo.three) as (H & _).
  destruct (H eq_refl) as (rs & Hr & _).
  destruct (render_marks_selected_row 0
              [{| name := "Untitled"; artists := [];
                  uri := "spotify:track:9" |}]) as (_ & H').
  split; [reflexivity | exact (H' eq_refl)].
Defined.

(** ** Showing the answer of a search *)

(** X7. When [delayed_search] gets a non-empty answer it stores it and
    selects row 0, without a remote call and without touching the playback
    state. When every track has an artist it then shows the rendering of
    the answer with row 0 marked, and returns; but when the result box
    rejects that rendering as markup, the box keeps its previous text and
    the coroutine raises [MarkupError]. When some track has no artist the
    box keeps its previous text and the coroutine raises [IndexError]. In
    both failures the answer is already stored and row 0 selected. *)
Theorem delayed_search_shows_answer `{ui : Markup} (query : string)
    (l : list Track) (s : App) :
  l <> [] ->
  let s' := exec (delayed_search_apply query (Ok l)) s in
  results s' = l /\ selected_index s' = 0 /\
  calls s' = calls s /\ tasks s' = tasks s /\
  is_playing s' = is_playing s /\ now_playing s' = now_playing s /\
  (forallb has_artist l = true ->
     exists text,
       render 0 l = Ok text /\
       if accepted text
       then results_box s' = text /\
            outcome (delayed_search_apply query (Ok l)) s = Ok tt
       else results_box s' = results_box s /\
            outcome (delayed_search_apply query (Ok l)) s = Raise MarkupError) /\
  (forallb has_artist l = false ->
     results_box s' = results_box s /\
     outcome (delayed_search_apply query (Ok l)) s = Raise IndexError).
Proof.
  intros Hne. destruct l as [|t l]; [done|]. cbn zeta.
  unfold exec, outcome, delayed_search_apply, bind, lift, modify, get, ret,
    update_results_box, raise.
  cbn [nonempty fst snd set_results set_selected_index selected_index results].
  do 6 (split; [destruct (render 0 (t :: l)) as [text|]; cbn;
                  [by destruct (accepted text)|done]|]).
  split; intros Hall.
  - destruct (rows_ok 0 (t :: l) 0 Hall) as (rs & Hrs & _).
    unfold render. rewrite Hrs. eexists. split; [done|].
    by destruct (accepted _).
  - unfold render. rewrite (rows_raise 0 (t :: l) 0 Hall). done.
Qed.

Lemma delayed_search_shows_answer_witness :
  let s := run Demo.ok true [InputChanged "boh"; Wake 0; Wake 0; Work 0] in
  let s' := exec (delayed_search_apply "boh" (Ok Demo.three)) s in
  let s'' := exec (delayed_search_apply "boh" (Ok [Demo.odd])) s in
  results s' = Demo.three /\ selected_index s' = 0 /\
  render 0 Demo.three = Ok (results_box s') /\
  results s'' = [Demo.odd] /\ results_box s'' = "Type to search...".
Proof.
  intros s s' s''.
  destruct (delayed_search_shows_answer "boh" Demo.three s ltac:(discriminate))
    as (H1 & H2 & _ & _ & _ & _ & H3 & _).
  destruct (H3 eq_refl) as (text & Ht & H4).
  destruct (delayed_search_shows_answer "boh" [Demo.odd] s ltac:(discriminate))
    as (H5 & _ & _ & _ & _ & _ & H6 & _).
  destruct (H6 eq_refl) as (text' & Ht' & H7).
  split; [exact H1|]. split; [exact H2|]. split; [reflexivity|].
  split; [exact H5 | reflexivity].
Defined.

(** ** The tasks the handlers create *)

Lemma rstrip_cons (c : ascii) (s : string) :
  Py.rstrip (String c s) =
  match Py.rstrip s with
  | EmptyString => if Py.isspace c then EmptyString else String c EmptyString
  | r => String c r
  end.
Proof. reflexivity. Qed.

Lemma rstrip_idempotent (s : string) : Py.rstrip (Py.rstrip s) = Py.rstrip s.
Proof.
  induction s as [|c s IH]; [done|].
  rewrite rstrip_cons. destruct (Py.rstrip s) as [|d r] eqn:E.
  - destruct (Py.isspace c) eqn:Ec; [done|].
    rewrite rstrip_cons. cbn. by rewrite Ec.
  - rewrite rstrip_cons, IH. done.
Qed.

Lemma lstrip_rstrip (t : string) :
  match t with
  | EmptyString => True
  | String c _ => Py.isspace c = false
  end ->
  Py.lstrip (Py.rstrip t) = Py.rstrip t.
Proof.
  destruct t as [|c r]; [done|]. intros Hc. cbn.
  destruct (Py.rstrip r); [rewrite Hc|]; cbn; by rewrite Hc.
Qed.

Lemma strip_idempotent (s : string) : Py.strip (Py.strip s) = Py.strip s.
Proof.
  unfold Py.strip. rewrite lstrip_rstrip.
  - apply rstrip_idempotent.
  - pose proof (lstrip_head s) as H. by destruct (Py.lstrip s).
Qed.

Section Tasks.

Context `{ui : Markup}.
Variable sp : Spotify.

Lemma lookup_set_phase_coro (tid tid' : nat) (ph : Phase) (s : App) (t' : Task) :
  tasks (set_phase tid ph s) !! tid' = Some t' ->
  exists t, tasks s !! tid' = Some t /\ coro t' = coro t.
Proof.
  rewrite lookup_set_phase. case_decide; [|by eauto].
  destruct (tasks s !! tid') as [t|]; cbn; [|done].
  intros ?. simplify_eq. eauto.
Qed.

Lemma superseded_coro (value : string) (s : App) (tid : nat) (t' : Task) :
  tasks (superseded value s) !! tid = Some t' ->
  exists t, tasks s !! tid = Some t /\ coro t' = coro t.
Proof.
  unfold superseded. cbn. repeat case_match; try by eauto.
  apply (lookup_set_phase_coro _ _ _ (set_query (Py.strip value) s)).
Qed.

(** Where the tasks of the next state come from: a task was there before,
    with the same coroutine, or it is the one task the handler created. *)
Lemma step_coro (s : App) (e : Event) (tid : nat) (t' : Task) :
  tasks (step sp s e) !! tid = Some t' ->
  (exists t, tasks s !! tid = Some t /\ coro t' = coro t) \/
  (tid = length (tasks s) /\
   ((exists value, e = InputChanged value /\ Py.strip value <> "" /\
                   t' = {| coro := DelayedSearch (Py.strip value);
                           phase := Scheduled |}) \/
    (exists key action, e = KeyPressed key /\ has_focus s = false /\
                        playback_key key = Some action /\
                        t' = {| coro := HandlePlayback action;
                                phase := Scheduled |}))).
Proof.
  destruct e as [value|key| | |tid'|tid']; cbn.
  - rewrite on_input_changed_exec. cbn zeta.
    pose proof (superseded_frame value s) as (Hq & _ & _ & _ & _ & _ & Hlen).
    destruct (Py.truthy (query (superseded value s))) eqn:Et; cbn.
    + intros H. apply lookup_create in H as [H|[-> ->]].
      * left. by apply (superseded_coro value).
      * right. split; [done|]. left. exists value. rewrite Hq in *.
        split; [done|]. split; [|done]. intros E. rewrite E in Et. done.
    + intros H. left. by apply (superseded_coro value).
  - unfold exec, playback_key. unfold_M. cbn.
    destruct (has_focus s) eqn:Hf; cbn.
    + repeat (case_match; cbn in *; simplify_eq; try done); by eauto.
    + repeat (case_match; cbn in *; simplify_eq; try done);
        try (by eauto);
        intros Hlk; apply lookup_create in Hlk as [Hlk|[-> ->]];
        try (by eauto); right; (split; [done|]); right;
        eexists key, _; (split; [done|]); (split; [done|]);
        (split; [|reflexivity]);
        repeat match goal with
               | Hx : String.eqb _ _ = _ |- _ => rewrite Hx; clear Hx
               end; reflexivity.
  - eauto.
  - eauto.
  - unfold wake.
    destruct (tasks s !! tid') as [[[q|a] ph]|] eqn:Et; [| |by eauto].
    + destruct ph as [| | |r| | |]; try (by eauto); intros H; left.
      * by apply (lookup_set_phase_coro tid' tid Sleeping s).
      * by apply (lookup_set_phase_coro tid' tid Submitted s).
      * rewrite advance_to_end in H.
        apply lookup_set_phase_coro in H as (t & Ht & Hc).
        pose proof (delayed_search_apply_spec q r s) as (_ & _ & Htk & _).
        rewrite Htk in Ht. eauto.
    + destruct ph; try (by eauto); intros H; left.
      * destruct (advance_exec tid' (handle_playback sp a) s) as [ph' E].
        rewrite E in H. apply lookup_set_phase_coro in H as (t & Ht & Hc).
        pose proof (handle_playback_frame sp a s) as (_ & _ & _ & _ & _ & Htk).
        rewrite Htk in Ht. eauto.
      * destruct (advance_exec tid' (handle_playback_settled sp) s) as [ph' E].
        rewrite E in H. apply lookup_set_phase_coro in H as (t & Ht & Hc).
        pose proof (handle_playback_settled_frame sp s) as (_ & _ & _ & _ & _ & Htk).
        rewrite Htk in Ht. eauto.
  - unfold work.
    destruct (tasks s !! tid') as [[[q|a] ph]|] eqn:Et; [|by eauto..].
    destruct ph; try (by eauto). intros H. left.
    pose proof (search_spotify_frame sp q s) as (_ & _ & _ & _ & _ & Htk).
    unfold exec in Htk. destruct (search_spotify sp q s) as [s' r]. cbn in Htk.
    apply lookup_set_phase_coro in H as (t & Ht & Hc). rewrite Htk in Ht. eauto.
Qed.

(** [self.search_task] after one event. *)
Lemma step_search_task (s : App) (e : Event) :
  search_task (step sp s e) = search_task s \/
  (exists value, e = InputChanged value /\ Py.strip value <> "" /\
                 search_task (step sp s e) = Some (length (tasks s))).
Proof.
  destruct e as [value|key| | |tid|tid]; cbn; try (by left).
  - rewrite on_input_changed_exec. cbn zeta.
    pose proof (superseded_frame value s) as (Hq & _ & _ & _ & Hst & _ & Hlen).
    destruct (Py.truthy (query (superseded value s))) eqn:Et; cbn; [|by left].
    right. exists value. rewrite Hq in Et. rewrite Hlen.
    split; [done|]. split; [|done]. intros E. rewrite E in Et. done.
  - left. unfold exec. crunch.
  - left. unfold wake.
    destruct (tasks s !! tid) as [[[q|a] ph]|]; [| |done].
    + destruct ph as [| | |r| | |]; try done.
      rewrite advance_to_end. apply (delayed_search_apply_spec q r s).
    + destruct ph; try done.
      * destruct (advance_exec tid (handle_playback sp a) s) as [ph' ->].
        apply handle_playback_frame.
      * destruct (advance_exec tid (handle_playback_settled sp) s) as [ph' ->].
        apply handle_playback_settled_frame.
  - left. unfold work.
    destruct (tasks s !! tid) as [[[q|a] ph]|]; [|done..].
    destruct ph; try done.
    pose proof (search_spotify_frame sp q s) as (_ & _ & _ & _ & Hst & _).
    unfold exec in Hst. by destruct (search_spotify sp q s).
Qed.

Lemma set_phase_keeps_coro (tid tid' : nat) (ph : Phase) (s : App) (t : Task) :
  tasks s !! tid' = Some t ->
  exists t', tasks (set_phase tid ph s) !! tid' = Some t' /\ coro t' = coro t.
Proof.
  intros H. rewrite lookup_set_phase, H. case_decide; cbn; eauto.
Qed.

(** Tasks are never removed from the table and keep their coroutine. *)
Lemma step_keeps_coro (s : App) (e : Event) (tid : nat) (t : Task) :
  tasks s !! tid = Some t ->
  exists t', tasks (step sp s e) !! tid = Some t' /\ coro t' = coro t.
Proof.
  intros H. destruct e as [value|key| | |tid'|tid']; cbn; try (by eauto).
  - rewrite on_input_changed_exec. cbn zeta.
    assert (Hs : exists t', tasks (superseded value s) !! tid = Some t' /\
                            coro t' = coro t).
    { unfold superseded. cbn. repeat case_match; try (by eauto).
      by apply (set_phase_keeps_coro _ _ _ (set_query (Py.strip value) s)). }
    destruct Hs as (t' & Ht' & Hc).
    destruct (negb _); cbn; [by eauto|].
    exists t'. split; [|done]. by apply lookup_app_l_Some.
  - pose proof (lookup_app_l_Some (tasks s) [{| coro := HandlePlayback "play_pause"; phase := Scheduled |}] tid t H).
    pose proof (lookup_app_l_Some (tasks s) [{| coro := HandlePlayback "next"; phase := Scheduled |}] tid t H).
    pose proof (lookup_app_l_Some (tasks s) [{| coro := HandlePlayback "previous"; phase := Scheduled |}] tid t H).
    unfold exec. unfold_M. cbn.
    repeat (case_match; cbn in *; simplify_eq; try done); by eauto.
  - unfold wake.
    destruct (tasks s !! tid') as [[[q|a] ph]|] eqn:Et; [| |by eauto].
    + destruct ph as [| | |r| | |]; try (by eauto).
      * by apply set_phase_keeps_coro.
      * by apply set_phase_keeps_coro.
      * rewrite advance_to_end. apply set_phase_keeps_coro.
        pose proof (delayed_search_apply_spec q r s) as (_ & _ & Htk & _).
        by rewrite Htk.
    + destruct ph; try (by eauto).
      * destruct (advance_exec tid' (handle_playback sp a) s) as [ph' ->].
        apply set_phase_keeps_coro.
        pose proof (handle_playback_frame sp a s) as (_ & _ & _ & _ & _ & Htk).
        by rewrite Htk.
      * destruct (advance_exec tid' (handle_playback_settled sp) s) as [ph' ->].
        apply set_phase_keeps_coro.
        pose proof (handle_playback_settled_frame sp s) as (_ & _ & _ & _ & _ & Htk).
        by rewrite Htk.
  - unfold work.
    destruct (tasks s !! tid') as [[[q|a] ph]|] eqn:Et; [|by eauto..].
    destruct ph; try (by eauto).
    pose proof (search_spotify_frame sp q s) as (_ & _ & _ & _ & _ & Htk).
    unfold exec in Htk. destruct (search_spotify sp q s) as [s' r]. cbn in Htk.
    apply set_phase_keeps_coro. by rewrite Htk.
Qed.

Lemma step_well_formed (s : App) (e : Event) :
  tasks_well_formed s -> tasks_well_formed (step sp s e).
Proof.
  intros (Hs & Hp & Ht). split; [|split].
  - intros tid q ph H.
    apply step_coro in H as [(t & Hl & Hc)|(_ & [(v & _ & Hv & E)|(k & a & _ & _ & _ & E)])].
    + destruct t as [c ph']. cbn in Hc. subst c. by eapply Hs.
    + simplify_eq. split; [done | apply strip_idempotent].
    + done.
  - intros tid a ph H.
    apply step_coro in H as [(t & Hl & Hc)|(_ & [(v & _ & _ & E)|(k & a' & _ & _ & Hk & E)])].
    + destruct t as [c ph']. cbn in Hc. subst c. by eapply Hp.
    + done.
    + simplify_eq. unfold playback_key in Hk.
      repeat case_match; simplify_eq; auto.
  - intros tid Hst.
    destruct (step_search_task s e) as [E|(v & -> & Hv & E)].
    + rewrite E in Hst. destruct (Ht tid Hst) as (q & ph & Hl).
      destruct (step_keeps_coro s e tid _ Hl) as ([c ph'] & Hl' & Hc).
      cbn in Hc. subst c. eauto.
    + rewrite E in Hst. simplify_eq. cbn. rewrite on_input_changed_exec. cbn zeta.
      pose proof (superseded_frame v s) as (Hq & _ & _ & _ & _ & _ & Hlen).
      rewrite Hq. destruct (Py.truthy (Py.strip v)) eqn:Et; cbn.
      * exists (Py.strip v), Scheduled. rewrite <- Hlen.
        by rewrite lookup_app_r, Nat.sub_diag by lia.
      * apply truthy_false_iff in Et. done.
Qed.

Lemma run_well_formed (focus : bool) (evs : list Event) :
  tasks_well_formed (run sp focus evs).
Proof.
  unfold run.
  assert (H0 : tasks_well_formed (exec (on_mount sp) (mounted focus))).
  { assert (Ht : tasks (exec (on_mount sp) (mounted focus)) = []) by crunch.
    assert (Hst : search_task (exec (on_mount sp) (mounted focus)) = None)
      by crunch.
    split; [|split].
    - intros tid q ph H. by rewrite Ht in H.
    - intros tid a ph H. by rewrite Ht in H.
    - intros tid H. by rewrite Hst in H. }
  revert H0. generalize (exec (on_mount sp) (mounted focus)).
  induction evs as [|e evs IH]; intros s H; cbn; [done|].
  apply IH, step_well_formed, H.
Qed.

End Tasks.

(** X8. In every reachable state each search task carries a non-empty
    query without surrounding whitespace, each playback task one of the
    actions [play_pause], [next], [previous], and [self.search_task], when
    set, is a search task of the table. So the blank-query guard of the
    search worker is never taken by a job: the job of a task that waits
    for the executor makes exactly one remote call, the search for the
    task's query with type "track" and limit 5, in the executor thread. *)
Theorem search_jobs_call_once `{ui : Markup} (sp : Spotify) (focus : bool) (evs : list Event) :
  let s := run sp focus evs in
  tasks_well_formed s /\
  forall tid q,
    tasks s !! tid = Some {| coro := DelayedSearch q; phase := Submitted |} ->
    calls (work sp tid s) = (calls s ++ [(InExecutor, Search q "track" 5)])%list /\
    exists r, tasks (work sp tid s) !! tid =
                Some {| coro := DelayedSearch q; phase := Returned (Ok r) |}.
Proof.
  intros s. pose proof (run_well_formed sp focus evs) as Hwf. fold s in Hwf.
  split; [exact Hwf|]. intros tid q Hl.
  destruct Hwf as (Hs & _ & _). destruct (Hs tid q _ Hl) as (Hne & Hstrip).
  unfold work. rewrite Hl. unfold search_spotify. rewrite Hstrip.
  destruct q as [|c q]; [done|]. cbn [Py.truthy negb].
  unfold try_except, bind, remote, any_exception, ret, raise.
  destruct (sp_search sp (length (calls s)) (String c q) "track" 5)
    as [[l|]|e]; cbn; (split; [done|]);
    rewrite list_lookup_alter, decide_True, Hl by done; cbn; eauto.
Qed.

Lemma search_jobs_call_once_witness :
  let s := run Demo.ok true [InputChanged "  boh "; Wake 0; Wake 0] in
  calls (work Demo.ok 0 s) =
    [(OnLoop, CurrentPlayback); (InExecutor, Search "boh" "track" 5)].
Proof.
  intros s.
  destruct (search_jobs_call_once Demo.ok true
              [InputChanged "  boh "; Wake 0; Wake 0]) as (_ & H).
  destruct (H 0%nat "boh" eq_refl) as (Hc & _).
  etransitivity; [exact Hc | reflexivity].
Defined.

(** ** After the input is cleared *)

Section Cleared.

Context `{ui : Markup}.
Variable sp : Spotify.

Lemma on_key_without_results (key : string) (s : App) :
  results s = [] ->
  let s' := exec (on_key sp key) s in
  results s' = [] /\ results_box s' = results_box s /\
  selected_index s' = selected_index s.
Proof.
  intros Hr. unfold exec. unfold_M. rewrite Hr. cbn.
  rewrite andb_false_r. repeat (case_match; cbn; try done).
Qed.

Lemma step_cleared (i : Z) (s : App) (e : Event) :
  no_input_change e = true ->
  cleared i s ->
  cleared i (step sp s e).
Proof.
  intros Hne (Hover & Hr & Hb & Hi).
  assert (Htasks : forall tid q ph,
    tasks (step sp s e) !! tid = Some {| coro := DelayedSearch q; phase := ph |} ->
    over ph = true).
  { intros tid q ph Hl.
    destruct (step_coro sp s e tid _ Hl)
      as [([c ph0] & Hl0 & Hc)|(_ & [(v & -> & _)|(k & a & _ & _ & _ & E)])];
      [|done|done].
    cbn in Hc. subst c. pose proof (Hover tid q ph0 Hl0) as Ho.
    rewrite (step_keeps_over sp s e tid _ Hl0 Ho) in Hl. by simplify_eq. }
  assert (Hrest : results (step sp s e) = [] /\
                  results_box (step sp s e) = "Type to search..." /\
                  selected_index (step sp s e) = i).
  { destruct e as [value|key| | |tid|tid]; cbn; try done.
    - destruct (on_key_without_results key s Hr) as (H1 & H2 & H3).
      rewrite H1, H2, H3. done.
    - unfold wake.
      destruct (tasks s !! tid) as [[[q|a] ph]|] eqn:Et; [| |done].
      + pose proof (Hover tid q ph Et). by destruct ph.
      + destruct ph; try done.
        * destruct (advance_exec tid (handle_playback sp a) s) as [ph' ->].
          pose proof (handle_playback_frame sp a s) as (_ & H1 & H2 & H3 & _).
          cbn. rewrite H1, H2, H3. done.
        * destruct (advance_exec tid (handle_playback_settled sp) s) as [ph' ->].
          pose proof (handle_playback_settled_frame sp s) as (_ & H1 & H2 & H3 & _).
          cbn. rewrite H1, H2, H3. done.
    - unfold work.
      destruct (tasks s !! tid) as [[[q|a] ph]|] eqn:Et; [|done..].
      pose proof (Hover tid q ph Et). by destruct ph. }
  destruct Hrest as (H1 & H2 & H3). done.
Qed.

End Cleared.

(** X10. Once the input holds only whitespace, the result list stays
    empty, the placeholder stays on screen and the selection keeps the
    value it had, whatever happens until the next change of the input: no
    answer of an earlier search comes back. *)
Theorem cleared_results_stay_cleared `{ui : Markup} (sp : Spotify) (focus : bool)
    (evs : list Event) (value : string) (evs' : list Event) :
  Py.all_space value = true ->
  forallb no_input_change evs' = true ->
  let s := run sp focus evs in
  let s' := fold_left (step sp) evs' (step sp s (InputChanged value)) in
  results s' = [] /\ results_box s' = "Type to search..." /\
  selected_index s' = selected_index s.
Proof.
  intros Hblank Hevs s s'. apply strip_blank_iff in Hblank.
  assert (H0 : cleared (selected_index s) (step sp s (InputChanged value))).
  { destruct (run_consistent sp focus evs) as [_ Hlive]. fold s in Hlive.
    cbn. rewrite on_input_changed_exec. cbn zeta.
    pose proof (superseded_frame value s) as (Hq & Hsel & _).
    rewrite Hq, Hblank. cbn. split; [|done].
    intros tid q ph Hl. by apply (superseded_all_over value s tid q ph Hlive). }
  subst s'. revert H0. generalize (step sp s (InputChanged value)).
  generalize (selected_index s). clear s.
  induction evs' as [|e evs' IH]; intros i s1 Hc; cbn.
  - destruct Hc as (_ & ? & ? & ?). done.
  - cbn in Hevs. apply andb_true_iff in Hevs as [He Hevs].
    apply (IH Hevs). by apply step_cleared.
Qed.

Lemma cleared_results_stay_cleared_witness :
  let s := run Demo.ok true [InputChanged "boh"; Wake 0; Wake 0; Work 0] in
  let s' := fold_left (step Demo.ok) [Wake 0; KeyPressed "down"; Work 0]
              (step Demo.ok s (InputChanged " ")) in
  results s' = [] /\ results_box s' = "Type to search...".
Proof.
  intros s s'.
  destruct (cleared_results_stay_cleared Demo.ok true
              [InputChanged "boh"; Wake 0; Wake 0; Work 0] " "
              [Wake 0; KeyPressed "down"; Work 0] eq_refl eq_refl)
    as (H1 & H2 & _).
  split; [exact H1 | exact H2].
Defined.

(** ** Separation of the two pipelines *)

(** X11. The search pipeline and the playback pipeline write disjoint
    parts of the state. A change of the input, a job of the executor, a
    focus change and the resumption of a search task leave [is_playing],
    the status label and [track_uri] as they were. The resumption of a
    playback task leaves the query, the result list, the selection, the
    result box, [self.search_task] and [track_uri] as they were. A key
    never changes [is_playing], the query, the result list or
    [self.search_task]. *)
Theorem pipelines_write_disjoint_state `{ui : Markup} (sp : Spotify) (s : App) (e : Event) :
  let s' := step sp s e in
  let playback_side_kept :=
    is_playing s' = is_playing s /\ now_playing s' = now_playing s /\
    track_uri s' = track_uri s in
  let search_side_kept :=
    query s' = query s /\ results s' = results s /\
    selected_index s' = selected_index s /\
    results_box s' = results_box s /\ search_task s' = search_task s /\
    track_uri s' = track_uri s in
  match e with
  | Wake tid =>
      match tasks s !! tid with
      | Some {| coro := HandlePlayback _ |} => search_side_kept
      | _ => playback_side_kept
      end
  | KeyPressed _ =>
      is_playing s' = is_playing s /\ query s' = query s /\
      results s' = results s /\ search_task s' = search_task s
  | _ => playback_side_kept
  end.
Proof.
  destruct e as [value|key| | |tid|tid]; cbn zeta; cbn [step]; try done.
  - unfold exec. crunch.
  - unfold exec. crunch.
  - unfold wake.
    destruct (tasks s !! tid) as [[[q|a] ph]|] eqn:Et; [| |done].
    + destruct ph as [| | |r| | |]; try done.
      rewrite advance_to_end. cbn.
      unfold exec. crunch.
    + assert (Hframe : forall (m : M Phase) p,
        (let s1 := exec m s in
         query s1 = query s /\ selected_index s1 = selected_index s /\
         results s1 = results s /\ results_box s1 = results_box s /\
         search_task s1 = search_task s /\ tasks s1 = tasks s) ->
        track_uri (exec m s) = track_uri s ->
        let s1 := set_phase tid p (exec m s) in
        query s1 = query s /\ results s1 = results s /\
        selected_index s1 = selected_index s /\
        results_box s1 = results_box s /\ search_task s1 = search_task s /\
        track_uri s1 = track_uri s).
      { intros m p (? & ? & ? & ? & ? & ?) ?. cbn. done. }
      destruct ph; try done.
      * destruct (advance_exec tid (handle_playback sp a) s) as [ph' ->].
        apply Hframe; [apply handle_playback_frame|]. unfold exec. crunch.
      * destruct (advance_exec tid (handle_playback_settled sp) s) as [ph' ->].
        apply Hframe; [apply handle_playback_settled_frame|]. unfold exec. crunch.
  - unfold work.
    destruct (tasks s !! tid) as [[[q|a] ph]|] eqn:Et; [|done..].
    destruct ph; try done.
    assert (H : let s1 := exec (search_spotify sp q) s in
                is_playing s1 = is_playing s /\ now_playing s1 = now_playing s /\
                track_uri s1 = track_uri s) by crunch.
    unfold exec in H. by destruct (search_spotify sp q s).
Qed.

(** ** From a keystroke to the result list *)

Section Typed.

Context `{ui : Markup}.
Variable sp : Spotify.

Lemma delayed_search_apply_rest (q : string) (r : Result (list Track)) (s : App) :
  let s' := exec (delayed_search_apply q r) s in
  calls s' = calls s /\
  forall l text, r = Ok l -> l <> [] -> render 0 l = Ok text ->
                 results_box s' = (if accepted text then text else results_box s).
Proof.
  split.
  - unfold exec. crunch.
  - intros l text -> Hne Hr. destruct l as [|t l]; [done|].
    unfold exec, delayed_search_apply, update_results_box, bind, lift, modify,
      raise, get, ret.
    cbn -[render accepted]. rewrite Hr. cbn -[accepted].
    by destruct (accepted text).
Qed.

(** The new task right after a non-blank change of the input. *)
Lemma on_input_changed_new_task (value : string) (s : App) :
  Py.strip value <> "" ->
  let s1 := step sp s (InputChanged value) in
  tasks s1 !! length (tasks s) =
    Some {| coro := DelayedSearch (Py.strip value); phase := Scheduled |} /\
  query s1 = Py.strip value /\ search_task s1 = Some (length (tasks s)) /\
  calls s1 = calls s /\ results s1 = results s /\
  selected_index s1 = selected_index s.
Proof.
  intros Hne. cbn. rewrite on_input_changed_exec. cbn zeta.
  pose proof (superseded_frame value s) as (Hq & Hsel & Hr & _ & _ & Hc & Hlen).
  rewrite Hq. destruct (Py.truthy (Py.strip value)) eqn:Et; cbn.
  - rewrite <- Hlen, lookup_app_r, Nat.sub_diag by lia. done.
  - by apply truthy_false_iff in Et.
Qed.

End Typed.

(** X12. From any state, a change of the input to a text that is not
    blank, followed by the three resumptions of the task it creates with
    the executor's job in between, and nothing else meanwhile: the one
    remote call made is the search for the stripped text, in the executor,
    and when the service answers with a list of items, that list becomes
    the result list. A non-empty list gets row 0 selected and, when every
    track has an artist and the result box accepts the rendering as
    markup, its rendering on screen (a rendering the box refuses leaves on
    screen what was there); an empty list shows "No results" and leaves
    the selection alone. The task is finished afterwards. *)
Theorem typed_query_is_searched_and_shown `{ui : Markup} (sp : Spotify) (s : App)
    (value : string) (items : list Track) :
  Py.strip value <> "" ->
  sp_search sp (length (calls s)) (Py.strip value) "track" 5 = Ok (Some items) ->
  let tid := length (tasks s) in
  let s' := fold_left (step sp)
              [InputChanged value; Wake tid; Wake tid; Work tid; Wake tid] s in
  query s' = Py.strip value /\
  calls s' = (calls s ++ [(InExecutor, Search (Py.strip value) "track" 5)])%list /\
  results s' = items /\
  (items <> [] -> selected_index s' = 0) /\
  (items <> [] -> forall text, render 0 items = Ok text ->
     results_box s' = (if accepted text then text else results_box s)) /\
  (items = [] ->
     results_box s' = "No results" /\ selected_index s' = selected_index s) /\
  search_task s' = Some tid /\
  exists exc, tasks s' !! tid =
    Some {| coro := DelayedSearch (Py.strip value); phase := Finished exc |}.
Proof.
  intros Hne Hans tid s'. subst s'.
  change (fold_left (step sp)
            [InputChanged value; Wake tid; Wake tid; Work tid; Wake tid] s)
    with (wake sp tid (work sp tid (wake sp tid (wake sp tid
            (step sp s (InputChanged value)))))).
  assert (Hb1 : results_box (step sp s (InputChanged value)) = results_box s).
  { cbn. rewrite on_input_changed_exec. cbn zeta.
    pose proof (superseded_frame value s) as (Hq & _ & _ & Hb & _).
    rewrite Hq.
    destruct (Py.truthy (Py.strip value)) eqn:Et; cbn; [exact Hb|].
    by apply truthy_false_iff in Et. }
  set (q := Py.strip value) in *.
  destruct (on_input_changed_new_task sp value s Hne)
    as (Hl1 & Hq1 & Hst1 & Hc1 & Hr1 & Hs1).
  fold tid q in Hl1, Hst1, Hq1.
  set (s1 := step sp s (InputChanged value)) in *.
  (* first resumption: to the sleep *)
  assert (E2 : wake sp tid s1 = set_phase tid Sleeping s1)
    by (unfold wake; by rewrite Hl1).
  rewrite E2.
  assert (Hl2 : tasks (set_phase tid Sleeping s1) !! tid =
                Some {| coro := DelayedSearch q; phase := Sleeping |})
    by (by rewrite lookup_set_phase, decide_True, Hl1).
  (* second resumption: the job is submitted *)
  assert (E3 : wake sp tid (set_phase tid Sleeping s1) =
               set_phase tid Submitted (set_phase tid Sleeping s1))
    by (unfold wake; by rewrite Hl2).
  rewrite E3. set (s3 := set_phase tid Submitted (set_phase tid Sleeping s1)).
  assert (Hl3 : tasks s3 !! tid =
                Some {| coro := DelayedSearch q; phase := Submitted |})
    by (subst s3; by rewrite lookup_set_phase, decide_True, Hl2).
  (* the job *)
  assert (Hjob : search_spotify sp q s3 =
                 (set_calls (calls s ++ [(InExecutor, Search q "track" 5)]) s3,
                  Ok items)).
  { unfold search_spotify. subst q. rewrite strip_idempotent.
    destruct (Py.strip value) as [|c r] eqn:E; [done|]. cbn [Py.truthy negb].
    unfold try_except, bind, remote, ret. cbn [calls s3 set_phase set_tasks].
    rewrite Hc1, Hans. done. }
  assert (E4 : work sp tid s3 =
               set_phase tid (Returned (Ok items))
                 (set_calls (calls s ++ [(InExecutor, Search q "track" 5)]) s3))
    by (unfold work; rewrite Hl3; cbv beta iota; by rewrite Hjob).
  rewrite E4.
  set (s4 := set_phase tid (Returned (Ok items)) _).
  assert (Hl4 : tasks s4 !! tid =
                Some {| coro := DelayedSearch q; phase := Returned (Ok items) |})
    by (subst s4; rewrite lookup_set_phase, decide_True by done;
        cbn [tasks set_calls]; by rewrite Hl3).
  (* last resumption: the answer is written *)
  assert (E5 : wake sp tid s4 =
               set_phase tid
                 (Finished (escaped (outcome (delayed_search_apply q (Ok items)) s4)))
                 (exec (delayed_search_apply q (Ok items)) s4))
    by (unfold wake; rewrite Hl4; apply advance_to_end).
  rewrite E5.
  pose proof (delayed_search_apply_spec q (Ok items) s4) as (Hq5 & Hst5 & Htk5 & Hres).
  pose proof (delayed_search_apply_rest q (Ok items) s4) as (Hc5 & Hbox).
  cbn zeta in *.
  split; [exact (eq_trans Hq5 Hq1)|].
  split; [exact Hc5|].
  split; [by destruct items; destruct Hres|].
  split; [intros Hi; destruct items; [done|]; by destruct Hres|].
  split.
  { intros Hi text Ht.
    change (results_box (exec (delayed_search_apply q (Ok items)) s4) =
            (if accepted text then text else results_box s)).
    rewrite (Hbox items text eq_refl Hi Ht).
    destruct (accepted text); [done|]. exact Hb1. }
  split.
  { intros ->. destruct Hres as (_ & Hsel & Hb).
    change (results_box (exec (delayed_search_apply q (Ok [])) s4) = "No results" /\
            selected_index (exec (delayed_search_apply q (Ok [])) s4) =
            selected_index s).
    rewrite Hb, Hsel. split; [|exact Hs1].
    subst q. by destruct (Py.strip value). }
  split; [exact (eq_trans Hst5 Hst1)|].
  eexists. rewrite lookup_set_phase, decide_True, Htk5, Hl4 by done. done.
Qed.

Lemma typed_query_is_searched_and_shown_witness :
  let s := run Demo.ok true [] in
  let s' := fold_left (step Demo.ok)
              [InputChanged " boh"; Wake 0; Wake 0; Work 0; Wake 0] s in
  results s' = Demo.three /\ selected_index s' = 0 /\
  calls s' = [(OnLoop, CurrentPlayback); (InExecutor, Search "boh" "track" 5)].
Proof.
  intros s s'.
  destruct (typed_query_is_searched_and_shown Demo.ok s " boh" Demo.three)
    as (_ & Hc & Hr & Hsel & _).
  - vm_compute; discriminate.
  - reflexivity.
  - split; [exact Hr|]. split; [apply Hsel; discriminate | exact Hc].
Defined.

(** ** What the handlers let escape, and when they call the service *)

(** X13. No handler lets a [SpotifyException] escape: [on_input_changed]
    never raises at all, and an exception that leaves [handle_playback] or
    [on_key] is never a [SpotifyException] (it is another exception of a
    remote call, the [IndexError] of a track without artists, or the
    error of a widget that refuses its text as markup). *)
Theorem spotify_exceptions_never_escape `{ui : Markup} (sp : Spotify) (s : App) :
  (forall value, outcome (on_input_changed value) s = Ok tt) /\
  (forall action e,
     outcome (handle_playback sp action) s = Raise e ->
     is_SpotifyException e = false) /\
  (forall e,
     outcome (handle_playback_settled sp) s = Raise e ->
     is_SpotifyException e = false) /\
  (forall key e,
     outcome (on_key sp key) s = Raise e ->
     is_SpotifyException e = false).
Proof.
  split; [|split; [|split]].
  - intros value. unfold outcome. crunch.
  - intros action e. unfold outcome. unfold_M. cbn.
    repeat (case_match; cbn in *; simplify_eq; try done);
      cbn; intros ?; by simplify_eq.
  - intros e. unfold outcome. unfold_M. cbn.
    repeat (case_match; cbn in *; simplify_eq; try done);
      cbn; intros ?; by simplify_eq.
  - intros key e. unfold outcome. unfold_M. cbn.
    assert (Hrow : forall sel i item e', row sel i item = Raise e' ->
                                         is_SpotifyException e' = false).
    { intros sel i item e'. rewrite row_with_artist.
      destruct (artists item); intros ?; by simplify_eq. }
    assert (Hrows : forall sel l i e', rows sel i l = Raise e' ->
                                       is_SpotifyException e' = false).
    { intros sel l. induction l as [|t l IH]; intros i e'; cbn; [done|].
      destruct (row sel i t) eqn:Er; [|intros ?; simplify_eq; by eapply Hrow].
      destruct (rows sel (i + 1) l) eqn:Ers; [done|].
      intros ?; simplify_eq. by eapply IH. }
    assert (Hrender : forall sel l e', render sel l = Raise e' ->
                                       is_SpotifyException e' = false).
    { intros sel l e'. unfold render.
      destruct (rows sel 0 l) eqn:Ers; [done|].
      intros ?; simplify_eq. by eapply Hrows. }
    assert (Hget : forall (l : list Track) i e', getitem l i = Raise e' ->
                                                 is_SpotifyException e' = false).
    { intros l i e'. unfold getitem.
      repeat case_match; intros ?; by simplify_eq. }
    repeat (case_match; cbn in *; simplify_eq; try done);
      cbn; intros ?; simplify_eq; try done; eauto.
Qed.

(** X14. The key handler itself calls the service only for Enter, with
    the input focused, on a non-empty result list whose selected item
    exists; the call is then [start_playback] with that item's URI. Every
    other key, in every state, leaves the log of remote calls as it was. *)
Theorem on_key_calls_service_only_for_enter `{ui : Markup} (sp : Spotify) (s : App)
    (key : string) :
  calls (exec (on_key sp key) s) = calls s \/
  (key = "enter" /\ has_focus s = true /\ results s <> [] /\
   exists item,
     getitem (results s) (selected_index s) = Ok item /\
     calls (exec (on_key sp key) s) =
       (calls s ++ [(OnLoop, StartPlayback (Some [uri item]))])%list).
Proof.
  unfold exec. unfold_M. cbn.
  destruct (has_focus s) eqn:Hf; cbn.
  - destruct (results s) as [|t l] eqn:Er; cbn; [by left|].
    destruct (String.eqb key "down") eqn:Ed; cbn.
    { left. repeat (case_match; cbn in *; simplify_eq; try done). }
    destruct (String.eqb key "up") eqn:Eu; cbn.
    { left. repeat (case_match; cbn in *; simplify_eq; try done). }
    destruct (String.eqb key "enter") eqn:Ee; cbn; [|by left].
    apply String.eqb_eq in Ee. subst key.
    destruct (getitem (t :: l) (selected_index s)) as [item|e] eqn:Eg; cbn;
      [|by left].
    right. split; [done|]. split; [done|]. split; [done|]. exists item.
    split; [done|].
    repeat (case_match; cbn in *; simplify_eq; try done).
  - left. repeat (case_match; cbn in *; simplify_eq; try done).
Qed.

(** X15. A change of the input to a text that is not blank makes no
    remote call and leaves the result list, the selection and the result
    box as they were: the earlier results stay on screen until the answer
    arrives. It stores the stripped text, creates exactly one task, the
    search for that text, records it in [self.search_task], and leaves
    every search task created before it done. *)
Theorem nonblank_input_schedules_one_search `{ui : Markup} (sp : Spotify) (focus : bool)
    (evs : list Event) (value : string) :
  Py.strip value <> "" ->
  let s := run sp focus evs in
  let s' := exec (on_input_changed value) s in
  outcome (on_input_changed value) s = Ok tt /\
  calls s' = calls s /\ results s' = results s /\
  selected_index s' = selected_index s /\ results_box s' = results_box s /\
  query s' = Py.strip value /\
  length (tasks s') = S (length (tasks s)) /\
  search_task s' = Some (length (tasks s)) /\
  tasks s' !! length (tasks s) =
    Some {| coro := DelayedSearch (Py.strip value); phase := Scheduled |} /\
  (forall tid q ph,
     (tid < length (tasks s))%nat ->
     tasks s' !! tid = Some {| coro := DelayedSearch q; phase := ph |} ->
     over ph = true).
Proof.
  intros Hne s s'.
  destruct (run_consistent sp focus evs) as [_ Hlive]. fold s in Hlive.
  split; [unfold outcome; crunch|].
  subst s'. rewrite on_input_changed_exec. cbn zeta.
  pose proof (superseded_frame value s) as (Hq & Hsel & Hr & Hb & _ & Hc & Hlen).
  rewrite Hq. destruct (Py.truthy (Py.strip value)) eqn:Et; cbn;
    [|by apply truthy_false_iff in Et].
  do 5 (split; [done|]).
  split; [rewrite length_app; cbn; lia|].
  split; [by rewrite Hlen|].
  split; [by rewrite <- Hlen, lookup_app_r, Nat.sub_diag by lia|].
  intros tid q ph Hlt Hl. apply lookup_create in Hl as [Hl|[-> _]]; [|lia].
  by apply (superseded_all_over value s tid q ph Hlive).
Qed.

Lemma nonblank_input_schedules_one_search_witness :
  let s := run Demo.ok true (Demo.typed ++ [KeyPressed "down"])%list in
  let s' := exec (on_input_changed "bohe") s in
  results s' = Demo.three /\ selected_index s' = 1 /\
  search_task s' = Some 1%nat.
Proof.
  intros s s'.
  destruct (nonblank_input_schedules_one_search Demo.ok true
              (Demo.typed ++ [KeyPressed "down"])%list "bohe")
    as (_ & _ & Hr & Hs & _ & _ & _ & Hst & _).
  - vm_compute; discriminate.
  - split; [etransitivity; [exact Hr | vm_compute; reflexivity]|].
    split; [etransitivity; [exact Hs | vm_compute; reflexivity]|].
    etransitivity; [exact Hst | vm_compute; reflexivity].
Defined.
